(** * Rust enum generator of the protobuf compiler

    A shallow embedding of [src/google/protobuf/compiler/rust/enum.cc]:
    the identifier normalizer ([camelToSnakeCase],
    [screamingSnakeToUpperCamelCase]), the alias resolver ([enumValues]) and
    the emitter ([GenerateEnumDefinition]), followed by the properties the
    specification states about them. *)

From Stdlib Require Import ZArith NArith Ascii String Bool Lia.
From Stdlib Require Import DecimalString.
From stdpp Require Import gmap strings list fin_maps.

(** ** The parts of Abseil the generator calls

    [char] is a byte; the classification functions of [absl/strings/ascii.h]
    are table lookups over the 256 byte values and recognise ASCII only. *)
Module absl.

Definition ascii_isupper (c : ascii) : bool :=
  let n := N_of_ascii c in ((65 <=? n) && (n <=? 90))%N.

Definition ascii_islower (c : ascii) : bool :=
  let n := N_of_ascii c in ((97 <=? n) && (n <=? 122))%N.

Definition ascii_isalpha (c : ascii) : bool :=
  ascii_isupper c || ascii_islower c.

Definition ascii_isdigit (c : ascii) : bool :=
  let n := N_of_ascii c in ((48 <=? n) && (n <=? 57))%N.

Definition ascii_tolower (c : ascii) : ascii :=
  if ascii_isupper c then ascii_of_N (N_of_ascii c + 32) else c.

Definition ascii_toupper (c : ascii) : ascii :=
  if ascii_islower c then ascii_of_N (N_of_ascii c - 32) else c.

(** [string_view::remove_prefix(n)], called with [n <= size()] only. *)
Fixpoint remove_prefix (s : string) (n : nat) : string :=
  match n, s with
  | S n', String _ rest => remove_prefix rest n'
  | _, _ => s
  end.

(** [string_view::substr(0, n)]. *)
Fixpoint substr0 (s : string) (n : nat) : string :=
  match n, s with
  | S n', String c rest => String c (substr0 rest n')
  | _, _ => EmptyString
  end.

(** [absl::EqualsIgnoreCase]: same size and equal bytes after
    [ascii_tolower]. *)
Fixpoint EqualsIgnoreCase (a b : string) : bool :=
  match a, b with
  | EmptyString, EmptyString => true
  | String x a', String y b' =>
      Ascii.eqb (ascii_tolower x) (ascii_tolower y) && EqualsIgnoreCase a' b'
  | _, _ => false
  end.

Definition StartsWithIgnoreCase (text prefix : string) : bool :=
  (String.length prefix <=? String.length text)%nat
  && EqualsIgnoreCase (substr0 text (String.length prefix)) prefix.

Definition StartsWith (text prefix : string) : bool :=
  (String.length prefix <=? String.length text)%nat
  && String.eqb (substr0 text (String.length prefix)) prefix.

(** [absl::ConsumePrefix(&str, expected)]: the flag it returns and the
    view it leaves in [str]. *)
Definition ConsumePrefix (str expected : string) : bool * string :=
  if StartsWith str expected
  then (true, remove_prefix str (String.length expected))
  else (false, str).

Definition StrCat (a b : string) : string := a +:+ b.

End absl.

(** ** Identifier normalizer *)

(** The [for (const char c : input)] loop of [camelToSnakeCase]; the loop
    variables [result] and [is_first_character] are threaded. *)
Fixpoint camelToSnakeCase_loop (input : string) (result : string)
    (is_first_character : bool) : string :=
  match input with
  | EmptyString => result
  | String c rest =>
      if Ascii.eqb c "_" then
        camelToSnakeCase_loop rest (result +:+ "_") is_first_character
      else
        let result :=
          if negb is_first_character && absl.ascii_isupper c
          then result +:+ "_" else result in
        let result := result +:+ String (absl.ascii_tolower c) EmptyString in
        camelToSnakeCase_loop rest result false
  end.

Definition camelToSnakeCase (input : string) : string :=
  camelToSnakeCase_loop input EmptyString true.

(** The loop of [screamingSnakeToUpperCamelCase], threading [result] and
    [cap_next_letter]. *)
Fixpoint screamingSnakeToUpperCamelCase_loop (input : string) (result : string)
    (cap_next_letter : bool) : string :=
  match input with
  | EmptyString => result
  | String c rest =>
      if absl.ascii_isalpha c then
        let result :=
          if cap_next_letter
          then result +:+ String (absl.ascii_toupper c) EmptyString
          else result +:+ String (absl.ascii_tolower c) EmptyString in
        screamingSnakeToUpperCamelCase_loop rest result false
      else if absl.ascii_isdigit c then
        screamingSnakeToUpperCamelCase_loop rest
          (result +:+ String c EmptyString) true
      else
        screamingSnakeToUpperCamelCase_loop rest result true
  end.

Definition screamingSnakeToUpperCamelCase (input : string) : string :=
  screamingSnakeToUpperCamelCase_loop input EmptyString true.

(** ** The descriptor interface

    [EnumDescriptor] and [EnumValueDescriptor] are read through [name()],
    [value_count()], [value(i)], [is_closed()] and [name()], [number()];
    [number()] is an [int32_t]. *)
Record EnumValueDescriptor : Type := {
  value_name : string;
  value_number : Z;
}.

Record EnumDescriptor : Type := {
  desc_name : string;
  desc_values : list EnumValueDescriptor;
  is_closed : bool;
}.

Definition value_count (desc : EnumDescriptor) : nat :=
  length (desc_values desc).

Definition value (desc : EnumDescriptor) (i : nat) : option EnumValueDescriptor :=
  desc_values desc !! i.

Definition i32_range (n : Z) : Prop := (- 2 ^ 31 <= n < 2 ^ 31)%Z.

(** [desc.value(i)->number()] where the code reads it without looking at
    [value_count()]: the read itself never stops the run. Past the last
    value the C++ read has no defined result; the number it yields here is
    arbitrary. *)
Definition value_number_at (desc : EnumDescriptor) (i : nat) : Z :=
  match value desc i with
  | Some v => value_number v
  | None => 0%Z
  end.

(** ** Alias resolver *)

(** An enum value with a unique number and any aliases for it. *)
Record RustEnumValue : Type := {
  name : string;
  number : Z;
  aliases : list string;
}.

Global Instance EnumValueDescriptor_eq_dec : EqDecision EnumValueDescriptor.
Proof. solve_decision. Defined.

Global Instance RustEnumValue_eq_dec : EqDecision RustEnumValue.
Proof. solve_decision. Defined.

(** The set of prefixes that will be stripped. *)
Definition prefixes (desc : EnumDescriptor) : list string :=
  [ desc_name desc;
    screamingSnakeToUpperCamelCase (desc_name desc);
    camelToSnakeCase (desc_name desc) ].

(** The inner [for (absl::string_view prefix : prefixes)] loop; its [break]
    is the branch that does not recurse. *)
Fixpoint strip_prefix_loop (prefixes : list string) (base_value_name : string)
    : string :=
  match prefixes with
  | [] => base_value_name
  | prefix :: rest =>
      if absl.StartsWithIgnoreCase base_value_name prefix then
        let base_value_name :=
          absl.remove_prefix base_value_name (String.length prefix) in
        snd (absl.ConsumePrefix base_value_name "_")
      else strip_prefix_loop rest base_value_name
  end.

(** [base_value_name] as it stands when [screamingSnakeToUpperCamelCase] is
    called on it. *)
Definition base_value_name (prefixes : list string) (value : EnumValueDescriptor)
    : string :=
  let base := strip_prefix_loop prefixes (value_name value) in
  if String.eqb base EmptyString then value_name value else base.

(** [std::string::operator[]]: position [size()] is allowed and reads the
    terminating NUL. *)
Definition string_at (s : string) (pos : nat) : ascii :=
  match String.get pos s with
  | Some c => c
  | None => Ascii.zero
  end.

(** [rust_value_name] as it stands when the loop body consults
    [seen_by_name]. *)
Definition rust_value_name (prefixes : list string) (value : EnumValueDescriptor)
    : string :=
  let rust_value_name :=
    screamingSnakeToUpperCamelCase (base_value_name prefixes value) in
  if absl.ascii_isdigit (string_at rust_value_name 0)
  then absl.StrCat "_" rust_value_name
  else rust_value_name.

(** The three containers of [enumValues]. A [RustEnumValue*] kept in
    [seen_by_number] points into [result], whose storage is reserved up front
    and never moves: it is the index of the element. *)
Record enumValues_state : Type := {
  seen_by_name : gset string;
  seen_by_number : gmap Z nat;
  result : list RustEnumValue;
}.

Definition enumValues_init : enumValues_state :=
  {| seen_by_name := ∅; seen_by_number := ∅; result := [] |}.

Definition push_alias (alias : string) (v : RustEnumValue) : RustEnumValue :=
  {| name := name v; number := number v; aliases := aliases v ++ [alias] |}.

(** One iteration of the outer loop of [enumValues]. *)
Definition enumValues_body (prefixes : list string) (st : enumValues_state)
    (value : EnumValueDescriptor) : enumValues_state :=
  let number := value_number value in
  let rust_value_name := rust_value_name prefixes value in
  if decide (rust_value_name ∈ seen_by_name st) then
    (* Don't add an alias with the same normalized name. *)
    st
  else
    match seen_by_number st !! number with
    | Some it =>
        (* This number has been seen before; this name is an alias. *)
        {| seen_by_name := {[ rust_value_name ]} ∪ seen_by_name st;
           seen_by_number := seen_by_number st;
           result := alter (push_alias rust_value_name) it (result st) |}
    | None =>
        (* This is the first value with this number; this name is canonical. *)
        {| seen_by_name := {[ rust_value_name ]} ∪ seen_by_name st;
           seen_by_number := <[ number := length (result st) ]> (seen_by_number st);
           result := result st ++
             [ {| name := rust_value_name; number := number; aliases := [] |} ] |}
    end.

(** The state after the loop has run over the values [vs]. *)
Definition enumValues_run (prefixes : list string) (vs : list EnumValueDescriptor)
    : enumValues_state :=
  fold_left (enumValues_body prefixes) vs enumValues_init.

Definition enumValues (desc : EnumDescriptor) : list RustEnumValue :=
  result (enumValues_run (prefixes desc) (desc_values desc)).

(** What the loop body does with a declared value. *)
Inductive outcome : Type := Canonical | Alias | Discarded.

Definition outcome_of (prefixes : list string) (st : enumValues_state)
    (value : EnumValueDescriptor) : outcome :=
  if decide (rust_value_name prefixes value ∈ seen_by_name st) then Discarded
  else match seen_by_number st !! value_number value with
       | Some _ => Alias
       | None => Canonical
       end.

Definition ev (n : string) (k : Z) : EnumValueDescriptor :=
  {| value_name := n; value_number := k |}.

(** ** Code emitter *)

(** The blocks of Rust that [GenerateEnumDefinition] appends, one constructor
    per block of its templates, carrying the substitutions of the block.
    Numbers are rendered in decimal by [absl::StrCat]. *)
Inductive RustItem : Type :=
| StructDecl (name : string)
    (* pub struct $name$(i32); *)
| AssocConst (name : string) (variant_name : string) (number : Z)
    (* pub const $variant_name$: $name$ = $name$($number$); *)
| ImplIntoI32 (name : string)
    (* impl From<$name$> for i32 { fn from(val) { val.0 } } *)
| ImplTryFromI32 (name : string) (known_values_pattern : list Z)
    (* if matches!(val, $known_values_pattern$) { Ok(Self(val)) }
       else { Err(UnknownEnumValue::new(Private, val)) } *)
| ImplFromI32 (name : string)
    (* impl From<i32> for $name$ { fn from(val) { Self(val) } } *)
| ImplDefault (name : string) (default_int_value : Z)
    (* fn default() -> Self { Self($default_int_value$) } *)
| ImplDebug (name : string)
| ImplProxied (name : string)
| ImplViewProxy (name : string)
| ImplSettableValue (name : string)
| ImplProxiedWithPresence (name : string)
| ImplProxiedInRepeated (name : string)
| ImplPrimitiveWithRawVTable (name : string)
| ImplEnum (name : string).

(** The output sink of the [Context]: what has been appended so far. *)
Definition Sink : Type := list RustItem.

(** A generator step runs on the sink; [None] is the process aborted by a
    failed [ABSL_CHECK], with the sink as the abort left it. *)
Definition Gen (A : Type) : Type := Sink → Sink * option A.

Global Instance Gen_ret : MRet Gen := λ A (a : A) (s : Sink), (s, Some a).

Global Instance Gen_bind : MBind Gen := λ A B (f : A → Gen B) (m : Gen A) (s : Sink),
  match m s with
  | (s', Some a) => f a s'
  | (s', None) => (s', None)
  end.

Definition ABSL_CHECK (cond : bool) : Gen unit :=
  λ s, (s, if cond then Some () else None).

Definition Emit (item : RustItem) : Gen unit :=
  λ s, ((s ++ [item]), Some ()).

Fixpoint for_each {A : Type} (body : A → Gen unit) (l : list A) : Gen unit :=
  match l with
  | [] => mret ()
  | x :: rest => body x ;; for_each body rest
  end.

(** The [variants] substitution. *)
Definition emit_variants (enum_name : string) (values : list RustEnumValue)
    : Gen unit :=
  for_each (λ value : RustEnumValue,
    Emit (AssocConst enum_name value.(name) value.(number)) ;;
    for_each (λ alias : string, Emit (AssocConst enum_name alias value.(number)))
             value.(aliases))
    values.

(** The [known_values_pattern] substitution: the alternatives
    [values[i].number], joined by [|]. *)
Definition known_values_pattern (values : list RustEnumValue) : list Z :=
  number <$> values.

(** The [impl_from_i32] substitution. *)
Definition emit_impl_from_i32 (desc : EnumDescriptor) (name : string)
    (values : list RustEnumValue) : Gen unit :=
  if is_closed desc
  then Emit (ImplTryFromI32 name (known_values_pattern values))
  else Emit (ImplFromI32 name).

Section Emitter.

(** [cpp::UnderscoresToCamelCase] of [compiler/cpp/helpers.h]. *)
Variable UnderscoresToCamelCase : string → bool → string.

Definition enumName (desc : EnumDescriptor) : string :=
  UnderscoresToCamelCase (desc_name desc) true.

Definition GenerateEnumDefinition (desc : EnumDescriptor) : Gen unit :=
  let name := enumName desc in
  ABSL_CHECK (0 <? value_count desc)%nat ;;
  let values := enumValues desc in
  (* The default value of an enum is the first listed value. *)
  let default_int_value := value_number_at desc 0 in
  Emit (StructDecl name) ;;
  emit_variants name values ;;
  Emit (ImplIntoI32 name) ;;
  emit_impl_from_i32 desc name values ;;
  Emit (ImplDefault name default_int_value) ;;
  Emit (ImplDebug name) ;;
  Emit (ImplProxied name) ;;
  Emit (ImplViewProxy name) ;;
  Emit (ImplSettableValue name) ;;
  Emit (ImplProxiedWithPresence name) ;;
  Emit (ImplProxiedInRepeated name) ;;
  Emit (ImplPrimitiveWithRawVTable name) ;;
  Emit (ImplEnum name).

End Emitter.

(** ** The generated Rust, read back

    What the emitted blocks compute once compiled: the generated type is a
    tuple struct around an [i32]. *)
Module Generated.

Inductive Enum : Type := Self (val : Z).

Inductive UnknownEnumValue : Type := UnknownEnumValue_new (val : Z).

Inductive Result (T E : Type) : Type := Ok (t : T) | Err (e : E).
Arguments Ok {T E} t.
Arguments Err {T E} e.

(** [val.0] *)
Definition into_i32 (v : Enum) : Z := match v with Self val => val end.

(** [matches!(val, a | b | ...)] *)
Definition matches (val : Z) (pattern : list Z) : bool :=
  existsb (Z.eqb val) pattern.

Definition try_from (pattern : list Z) (val : Z) : Result Enum UnknownEnumValue :=
  if matches val pattern then Ok (Self val) else Err (UnknownEnumValue_new val).

Definition from (val : Z) : Enum := Self val.

(** The integer-to-type conversion among the emitted blocks: [TryFrom<i32>]
    or [From<i32>], whichever was generated. *)
Fixpoint from_integer (items : list RustItem) (val : Z)
    : option (Result Enum UnknownEnumValue) :=
  match items with
  | [] => None
  | ImplTryFromI32 _ pattern :: _ => Some (try_from pattern val)
  | ImplFromI32 _ :: _ => Some (Ok (from val))
  | _ :: rest => from_integer rest val
  end.

(** The type-to-integer conversion among the emitted blocks. *)
Fixpoint to_integer (items : list RustItem) (v : Enum) : option Z :=
  match items with
  | [] => None
  | ImplIntoI32 _ :: _ => Some (into_i32 v)
  | _ :: rest => to_integer rest v
  end.

(** [Default::default()] among the emitted blocks. *)
Fixpoint default (items : list RustItem) : option Enum :=
  match items with
  | [] => None
  | ImplDefault _ default_int_value :: _ => Some (Self default_int_value)
  | _ :: rest => default rest
  end.

End Generated.

(** ** Reference definitions the properties are stated against *)

(** The elements of [l] whose key occurs for the first time, in the order of
    [l]. *)
Fixpoint first_by {A K : Type} `{EqDecision K} (key : A → K) (l : list A)
    : list A :=
  match l with
  | [] => []
  | x :: rest => x :: filter (λ y, key y ≠ key x) (first_by key rest)
  end.

(** The declared values that are not discarded: those whose normalized name
    no earlier declared value has. *)
Definition retained (prefixes : list string) (vs : list EnumValueDescriptor)
    : list EnumValueDescriptor :=
  first_by (rust_value_name prefixes) vs.

(** The retained values that carry the number [k], in declaration order. *)
Definition with_number (k : Z) (vs : list EnumValueDescriptor)
    : list EnumValueDescriptor :=
  filter (λ u, value_number u = k) vs.

(** The canonical entry of the number of [v] among the retained values [rs]:
    the first name is canonical, the later ones are its aliases. *)
Definition canonical_entry (prefixes : list string)
    (rs : list EnumValueDescriptor) (v : EnumValueDescriptor) : RustEnumValue :=
  {| name := rust_value_name prefixes v;
     number := value_number v;
     aliases := tail (rust_value_name prefixes <$>
                        with_number (value_number v) rs) |}.

(** The canonical list as the specification describes it: one entry per
    distinct number of the retained values, in order of first appearance. *)
Definition canonical_list (prefixes : list string)
    (vs : list EnumValueDescriptor) : list RustEnumValue :=
  let rs := retained prefixes vs in
  canonical_entry prefixes rs <$> first_by value_number rs.

(** Every name the canonical list binds, canonical names and aliases. *)
Definition recorded_names (values : list RustEnumValue) : list string :=
  values ≫= λ v, name v :: aliases v.

(** [strip_ignore_case p s] is the rest of [s] after a leading part that
    equals [p] up to ASCII case, if there is one. *)
Fixpoint strip_ignore_case (p s : string) : option string :=
  match p, s with
  | EmptyString, _ => Some s
  | String a p', String b s' =>
      if Ascii.eqb (absl.ascii_tolower b) (absl.ascii_tolower a)
      then strip_ignore_case p' s' else None
  | String _ _, EmptyString => None
  end.

Definition strip_one_underscore (s : string) : string :=
  match s with
  | String c rest => if Ascii.eqb c "_" then rest else s
  | EmptyString => s
  end.

(** The normalized name of a declared value in the words of the
    specification, steps 1 to 5 of the alias resolver. *)
Definition normalized_name_spec (enum_name symbolic_name : string) : string :=
  let stripped :=
    match strip_ignore_case enum_name symbolic_name with
    | Some r => strip_one_underscore r
    | None =>
      match strip_ignore_case (screamingSnakeToUpperCamelCase enum_name)
                              symbolic_name with
      | Some r => strip_one_underscore r
      | None =>
        match strip_ignore_case (camelToSnakeCase enum_name) symbolic_name with
        | Some r => strip_one_underscore r
        | None => symbolic_name
        end
      end
    end in
  let remainder :=
    match stripped with EmptyString => symbolic_name | _ => stripped end in
  let camel := screamingSnakeToUpperCamelCase remainder in
  match camel with
  | String c _ => if absl.ascii_isdigit c then String "_" camel else camel
  | EmptyString => camel
  end.

(** [camelToSnake] position by position: the piece of output that the
    character [c] at position [i] of [s] gives rise to, for a rule
    [inserts s i c] saying where an underscore is inserted. *)
Definition snake_piece (inserts : list ascii → nat → ascii → bool)
    (s : list ascii) (i : nat) (c : ascii) : list ascii :=
  if Ascii.eqb c "_" then [c]
  else (if inserts s i c then ["_"%char] else []) ++ [absl.ascii_tolower c].

Definition snake_by (inserts : list ascii → nat → ascii → bool)
    (s : list ascii) : list ascii :=
  concat (imap (snake_piece inserts s) s).

(** The insertion rule in the words of the specification: before an
    uppercase letter that is not the first character and does not
    immediately follow an underscore. *)
Definition inserts_as_specified (s : list ascii) (i : nat) (c : ascii) : bool :=
  absl.ascii_isupper c &&
  match i with
  | O => false
  | S j => match s !! j with
           | Some p => negb (Ascii.eqb p "_")
           | None => false
           end
  end.

(** The insertion rule of the code: before an uppercase letter that some
    character other than an underscore precedes, however far back. *)
Definition inserts_after_non_underscore (s : list ascii) (i : nat) (c : ascii)
    : bool :=
  absl.ascii_isupper c && existsb (λ p, negb (Ascii.eqb p "_")) (take i s).

(** The characters of a name that survive [screamingSnakeToUpperCamelCase]. *)
Definition ascii_isalnum (c : ascii) : bool :=
  absl.ascii_isalpha c || absl.ascii_isdigit c.

Definition has_alnum (s : string) : bool :=
  existsb ascii_isalnum (list_ascii_of_string s).

(** [n] is the number of a declared value that is not discarded: no earlier
    declared value has its normalized name. *)
Definition kept_number (prefixes : list string) (vs : list EnumValueDescriptor)
    (n : Z) : Prop :=
  ∃ i v, vs !! i = Some v ∧ value_number v = n
         ∧ ∀ j u, j < i → vs !! j = Some u →
                  rust_value_name prefixes u ≠ rust_value_name prefixes v.

(** The constants [emit_variants] appends: for each canonical value its own
    constant, then one per alias. *)
Definition variant_items (enum_name : string) (values : list RustEnumValue)
    : list RustItem :=
  values ≫= λ value,
    AssocConst enum_name (name value) (number value)
    :: ((λ alias, AssocConst enum_name alias (number value)) <$> aliases value).

(** Everything one run of [GenerateEnumDefinition] appends for a descriptor
    whose first declared value is [first], in template order. *)
Definition generated_items (type_name : string) (desc : EnumDescriptor)
    (first : EnumValueDescriptor) : list RustItem :=
  StructDecl type_name
  :: variant_items type_name (enumValues desc)
  ++ [ ImplIntoI32 type_name;
       (if is_closed desc
        then ImplTryFromI32 type_name (known_values_pattern (enumValues desc))
        else ImplFromI32 type_name);
       ImplDefault type_name (value_number first);
       ImplDebug type_name;
       ImplProxied type_name;
       ImplViewProxy type_name;
       ImplSettableValue type_name;
       ImplProxiedWithPresence type_name;
       ImplProxiedInRepeated type_name;
       ImplPrimitiveWithRawVTable type_name;
       ImplEnum type_name ].

Definition is_AssocConst (item : RustItem) : Prop :=
  match item with AssocConst _ _ _ => True | _ => False end.

(** The constants a canonical list binds: each name, canonical or alias, with
    the number it stands for. *)
Definition bindings (values : list RustEnumValue) : list (string * Z) :=
  values ≫= λ v, (name v, number v) :: ((λ a, (a, number v)) <$> aliases v).

(** The name and number of an emitted constant. *)
Definition const_of (item : RustItem) : option (string * Z) :=
  match item with
  | AssocConst _ variant_name number => Some (variant_name, number)
  | _ => None
  end.

(** The entry the resolver makes of a declared value that collides with
    nothing. *)
Definition plain_entry (prefixes : list string) (v : EnumValueDescriptor)
    : RustEnumValue :=
  {| name := rust_value_name prefixes v; number := value_number v;
     aliases := [] |}.

(** [absl::StrCat] of an [int32_t]: its decimal digits, after a minus sign
    when it is negative. *)
Definition StrCat_int32 (n : Z) : string :=
  NilZero.string_of_int (Z.to_int n).

(** The text of the [known_values_pattern] substitution: the loop
    [for (size_t i = 0; i < values.size(); ++i)] that emits
    [values[i].number], followed by a bar unless [i] is the last index.
    [rest] is [values] from index [i] on and [out] the text emitted so
    far. *)
Fixpoint known_values_pattern_loop (size i : nat) (rest : list RustEnumValue)
    (out : string) : string :=
  match rest with
  | [] => out
  | value :: rest =>
      known_values_pattern_loop size (S i) rest
        (out +:+ absl.StrCat (StrCat_int32 (number value))
                             (if (i <? size - 1)%nat then "|" else ""))
  end.

Definition known_values_pattern_text (values : list RustEnumValue) : string :=
  known_values_pattern_loop (length values) 0 values "".

(** Schemas the properties are evaluated at. *)
Definition color_closed : EnumDescriptor :=
  {| desc_name := "Color";
     desc_values := [ev "COLOR_RED" 0; ev "Red" 1; ev "COLOR_BLUE" 2;
                     ev "COLOR_AZURE" 2];
     is_closed := true |}.

Definition color_open : EnumDescriptor :=
  {| desc_name := "Color";
     desc_values := [ev "COLOR_RED" 0; ev "COLOR_BLUE" 1];
     is_closed := false |}.

Definition no_values : EnumDescriptor :=
  {| desc_name := "Empty"; desc_values := []; is_closed := false |}.

Definition keep_name (input : string) (cap_first_letter : bool) : string :=
  input.

(** ** The scenarios of the specification, evaluated *)

Example camelToSnakeCase_MyEnum : camelToSnakeCase "MyEnum" = "my_enum".
Proof. reflexivity. Qed.

Example screamingSnake_MY_ENUM :
  screamingSnakeToUpperCamelCase "MY_ENUM_FOO" = "MyEnumFoo".
Proof. reflexivity. Qed.

Example enumValues_scenario_1 :
  enumValues {| desc_name := "E";
                desc_values := [ev "A" 0; ev "B" 1; ev "B_ALIAS" 1; ev "A" 0];
                is_closed := false |}
  = [ {| name := "A"; number := 0; aliases := [] |};
      {| name := "B"; number := 1; aliases := ["BAlias"] |} ].
Proof. vm_compute. reflexivity. Qed.

Example rust_value_name_scenario_2 :
  rust_value_name (prefixes {| desc_name := "MyEnum"; desc_values := [];
                               is_closed := false |})
                  (ev "MY_ENUM_FOO" 0) = "Foo".
Proof. reflexivity. Qed.

Example rust_value_name_scenario_3 :
  rust_value_name (prefixes {| desc_name := "Dim"; desc_values := [];
                               is_closed := false |})
                  (ev "DIM_2D" 0) = "_2D".
Proof. reflexivity. Qed.

(** ** Facts about characters and strings *)

Abbreviation chars := list_ascii_of_string (only parsing).

Lemma chars_app (a b : string) : chars (a +:+ b) = (chars a ++ chars b).
Proof. induction a as [|c a IH]; simpl; [reflexivity | by rewrite IH]. Qed.

Lemma tolower_not_upper (c : ascii) :
  absl.ascii_isupper (absl.ascii_tolower c) = false.
Proof. by destruct c as [[] [] [] [] [] [] [] []]. Qed.

(** ** Facts about [camelToSnakeCase] *)

Definition non_underscore (p : ascii) : bool := negb (Ascii.eqb p "_").

(** The loop invariant: [result] holds the pieces of the characters read so
    far, and [is_first_character] is still set exactly when all of them were
    underscores. *)
Lemma camelToSnakeCase_loop_pieces (rest : string) :
  ∀ (pre : list ascii) (acc : string),
    chars (camelToSnakeCase_loop rest acc (negb (existsb non_underscore pre)))
    = (chars acc ++
       concat (imap (λ i, snake_piece inserts_after_non_underscore
                            (pre ++ chars rest) (length pre + i))
                    (chars rest))).
Proof.
  induction rest as [|c rest IH]; intros pre acc.
  - simpl. by rewrite app_nil_r.
  - cbn [camelToSnakeCase_loop list_ascii_of_string].
    rewrite imap_cons. cbn [concat].
    assert (Htake : take (length pre + 0) (pre ++ c :: chars rest) = pre).
    { rewrite Nat.add_0_r. by rewrite take_app_length. }
    assert (Hnext : ∀ acc' : string,
      chars (camelToSnakeCase_loop rest acc'
               (negb (existsb non_underscore (pre ++ [c]))))
      = (chars acc' ++
         concat (imap ((λ i, snake_piece inserts_after_non_underscore
                               (pre ++ c :: chars rest) (length pre + i)) ∘ S)
                      (chars rest)))).
    { intros acc'. rewrite IH. f_equal. f_equal. apply imap_ext.
      intros i x _. cbn. rewrite <- app_assoc. cbn.
      rewrite length_app. cbn. f_equal. lia. }
    unfold snake_piece at 1. unfold inserts_after_non_underscore at 1.
    rewrite Htake. fold non_underscore.
    destruct (Ascii.eqb c "_") eqn:Hc.
    + assert (Hflag : existsb non_underscore (pre ++ [c]) = existsb non_underscore pre).
      { rewrite existsb_app. cbn. unfold non_underscore at 2. rewrite Hc. cbn.
        by rewrite !orb_false_r. }
      rewrite <- Hflag, Hnext, chars_app. apply Ascii.eqb_eq in Hc. subst c.
      cbn. by rewrite <- app_assoc.
    + assert (Hflag : existsb non_underscore (pre ++ [c]) = true).
      { rewrite existsb_app. cbn. unfold non_underscore at 2. rewrite Hc. cbn.
        by rewrite orb_true_r. }
      rewrite Hflag in Hnext. cbn [negb] in Hnext. rewrite Hnext.
      rewrite negb_involutive. rewrite (andb_comm (existsb _ _)).
      destruct (absl.ascii_isupper c && existsb non_underscore pre);
        rewrite !chars_app; cbn; rewrite <- !app_assoc; reflexivity.
Qed.

Lemma camelToSnakeCase_pieces (input : string) :
  chars (camelToSnakeCase input)
  = snake_by inserts_after_non_underscore (chars input).
Proof.
  exact (camelToSnakeCase_loop_pieces input [] EmptyString).
Qed.

Lemma Forall_concat_imap {A B : Type} (P : B → Prop) (f : nat → A → list B)
    (l : list A) :
  (∀ i x, Forall P (f i x)) → Forall P (concat (imap f l)).
Proof.
  revert f. induction l as [|x l IH]; intros f Hf; [constructor|].
  rewrite imap_cons. cbn [concat]. apply Forall_app_2; [apply Hf|].
  apply IH. intros i y. apply Hf.
Qed.

Lemma snake_by_no_upper inserts (s : list ascii) :
  Forall (λ c, absl.ascii_isupper c = false) (snake_by inserts s).
Proof.
  apply Forall_concat_imap. intros i c.
  unfold snake_piece. destruct (Ascii.eqb c "_") eqn:Hc.
  - apply Ascii.eqb_eq in Hc. subst c. by repeat constructor.
  - destruct (inserts _ _ _); repeat constructor; apply tolower_not_upper.
Qed.

(** Wherever the specification asks for an underscore, the code inserts
    one. *)
Lemma inserts_as_specified_inserted (s : list ascii) (i : nat) (c : ascii) :
  inserts_as_specified s i c = true →
  inserts_after_non_underscore s i c = true.
Proof.
  unfold inserts_as_specified, inserts_after_non_underscore.
  destruct (absl.ascii_isupper c); [cbn [andb] | done].
  destruct i as [|j]; [done|].
  destruct (s !! j) as [p|] eqn:Hp; [|done]. intros Hnon.
  apply existsb_exists. exists p. split; [|done].
  apply list_elem_of_In. apply (list_elem_of_lookup_2 _ j).
  rewrite lookup_take_lt by lia. done.
Qed.

(** C5 (as amended): [camelToSnakeCase] is a total function whose output is,
    character by character of the input: an underscore passed through
    unchanged; any other character lowercased, with an underscore inserted
    before it exactly when it is an uppercase letter and some character other
    than an underscore comes before it, whether or not it immediately follows
    an underscore. No uppercase letter is left in the output. *)
Theorem camelToSnakeCase_characterised (input : string) :
  chars (camelToSnakeCase input)
  = snake_by inserts_after_non_underscore (chars input)
  ∧ Forall (λ c, absl.ascii_isupper c = false) (chars (camelToSnakeCase input)).
Proof.
  split; [apply camelToSnakeCase_pieces|].
  rewrite camelToSnakeCase_pieces. apply snake_by_no_upper.
Qed.

(** C5 as stated fails: in ["A_B"] the letter [B] immediately follows an
    underscore, so the stated rule inserts nothing before it and gives
    ["a_b"]; the code inserts a second underscore and returns ["a__b"]. *)
Lemma camelToSnakeCase_inserts_after_underscore :
  camelToSnakeCase "A_B" = "a__b"
  ∧ string_of_list_ascii (snake_by inserts_as_specified (chars "A_B")) = "a_b"
  ∧ chars (camelToSnakeCase "A_B") ≠ snake_by inserts_as_specified (chars "A_B").
Proof. split; [reflexivity|]. split; [reflexivity|]. vm_compute. discriminate. Qed.

(** ** Facts about [screamingSnakeToUpperCamelCase] *)

Lemma length_snoc (s : string) (c : ascii) :
  String.length (s +:+ String c EmptyString) = S (String.length s).
Proof. induction s as [|a s IH]; simpl; [reflexivity | by rewrite IH]. Qed.

Lemma screamingSnake_loop_grows (input : string) :
  ∀ acc b,
    (String.length acc
     ≤ String.length (screamingSnakeToUpperCamelCase_loop input acc b))%nat.
Proof.
  induction input as [|c rest IH]; intros acc b; cbn; [lia|].
  destruct (absl.ascii_isalpha c); [|destruct (absl.ascii_isdigit c)].
  - destruct b; (etrans; [|apply IH]); rewrite length_snoc; lia.
  - etrans; [|apply IH]. rewrite length_snoc. lia.
  - apply IH.
Qed.

Lemma screamingSnake_loop_alnum (input : string) :
  ∀ acc b, has_alnum input = true →
    (String.length acc
     < String.length (screamingSnakeToUpperCamelCase_loop input acc b))%nat.
Proof.
  unfold has_alnum.
  induction input as [|c rest IH]; intros acc b H; cbn in *; [discriminate|].
  unfold ascii_isalnum in H at 1.
  destruct (absl.ascii_isalpha c); [|destruct (absl.ascii_isdigit c)].
  - destruct b;
      (eapply Nat.lt_le_trans; [|apply screamingSnake_loop_grows]);
      rewrite length_snoc; lia.
  - eapply Nat.lt_le_trans; [|apply screamingSnake_loop_grows].
    rewrite length_snoc. lia.
  - by apply IH.
Qed.

Lemma screamingSnake_loop_no_alnum (input : string) :
  ∀ acc b, has_alnum input = false →
    screamingSnakeToUpperCamelCase_loop input acc b = acc.
Proof.
  unfold has_alnum.
  induction input as [|c rest IH]; intros acc b H; cbn in *; [reflexivity|].
  apply orb_false_iff in H as [Hc Hrest].
  apply orb_false_iff in Hc as [-> ->]. by apply IH.
Qed.

Lemma string_get_0_length (s : string) :
  is_Some (String.get 0 s) ↔ (0 < String.length s)%nat.
Proof.
  destruct s; cbn; split; intros H; try lia; try by eexists.
  by destruct H.
Qed.

(** C10: when the name handed to [screamingSnakeToUpperCamelCase] (after prefix
    stripping and the reversion to the original name) contains a letter or a
    digit, the normalized name is non-empty and position 0, which the
    digit guard reads, is within it; when it contains none (as for ["_"]),
    [screamingSnakeToUpperCamelCase] returns the empty string and the guard
    reads position 0 of an empty string. *)
Theorem rust_value_name_first_character
    (prefixes : list string) (value : EnumValueDescriptor) :
  let base := base_value_name prefixes value in
  let normalized := screamingSnakeToUpperCamelCase base in
  (has_alnum base = true →
     normalized ≠ EmptyString
     ∧ is_Some (String.get 0 normalized)
     ∧ rust_value_name prefixes value ≠ EmptyString)
  ∧ (has_alnum base = false →
     normalized = EmptyString
     ∧ String.get 0 normalized = None
     ∧ String.length normalized = 0%nat
     ∧ rust_value_name prefixes value = EmptyString).
Proof.
  intros base normalized. split; intros H.
  - assert (Hlen : (0 < String.length normalized)%nat).
    { apply (screamingSnake_loop_alnum base EmptyString true H). }
    assert (Hne : normalized ≠ EmptyString).
    { intros E. rewrite E in Hlen. cbn in Hlen. lia. }
    split; [exact Hne|]. split; [by apply string_get_0_length|].
    unfold rust_value_name. fold base. fold normalized.
    destruct (absl.ascii_isdigit _); [|exact Hne].
    unfold absl.StrCat. cbn. discriminate.
  - assert (E : normalized = EmptyString).
    { apply (screamingSnake_loop_no_alnum base EmptyString true H). }
    unfold rust_value_name. fold base. fold normalized. rewrite E.
    by cbn.
Qed.

Lemma rust_value_name_first_character_witness :
  let p := ["E"] in
  (has_alnum (base_value_name p (ev "FOO_2" 0)) = true
   ∧ rust_value_name p (ev "FOO_2" 0) ≠ EmptyString)
  ∧ (has_alnum (base_value_name p (ev "_" 0)) = false
     ∧ screamingSnakeToUpperCamelCase (base_value_name p (ev "_" 0)) = EmptyString
     ∧ String.get 0 (screamingSnakeToUpperCamelCase (base_value_name p (ev "_" 0)))
       = None).
Proof.
  intros p. split.
  - split; [reflexivity|].
    apply (proj1 (rust_value_name_first_character p (ev "FOO_2" 0))).
    reflexivity.
  - split; [reflexivity|].
    pose proof (proj2 (rust_value_name_first_character p (ev "_" 0))
                  eq_refl) as (H1 & H2 & _).
    split; [exact H1 | exact H2].
Defined.

(** ** Facts about prefix stripping *)

(** [StartsWithIgnoreCase] followed by [remove_prefix] is
    [strip_ignore_case]. *)
Lemma strip_ignore_case_StartsWith (p : string) :
  ∀ s, strip_ignore_case p s
       = if absl.StartsWithIgnoreCase s p
         then Some (absl.remove_prefix s (String.length p)) else None.
Proof.
  unfold absl.StartsWithIgnoreCase.
  induction p as [|a p IH]; intros s.
  - by destruct s.
  - destruct s as [|b s]; [reflexivity|].
    cbn [strip_ignore_case String.length absl.substr0 absl.remove_prefix
         absl.EqualsIgnoreCase].
    change (S (String.length p) <=? S (String.length s))%nat
      with (String.length p <=? String.length s)%nat.
    destruct (Ascii.eqb (absl.ascii_tolower b) (absl.ascii_tolower a)).
    + rewrite IH. reflexivity.
    + by rewrite andb_false_r.
Qed.

(** What a case-insensitive prefix is: [strip_ignore_case p s] returns [r]
    exactly when [s] is some [q] followed by [r], with [q] equal to [p] after
    lowercasing both. *)
Lemma strip_ignore_case_Some (p s r : string) :
  strip_ignore_case p s = Some r
  ↔ ∃ q, s = q +:+ r
         ∧ absl.ascii_tolower <$> chars q = absl.ascii_tolower <$> chars p.
Proof.
  revert s. induction p as [|a p IH]; intros s.
  - cbn. split.
    + intros [= ->]. by exists EmptyString.
    + intros (q & -> & Hq). destruct q; [reflexivity | discriminate].
  - destruct s as [|b s]; cbn [strip_ignore_case].
    + split; [discriminate|]. intros (q & Hs & Hq).
      destruct q; [discriminate | discriminate].
    + destruct (Ascii.eqb (absl.ascii_tolower b) (absl.ascii_tolower a)) eqn:E.
      * apply Ascii.eqb_eq in E. rewrite IH. split.
        -- intros (q & -> & Hq). exists (String b q). split; [reflexivity|].
           cbn. by rewrite E, Hq.
        -- intros (q & Hs & Hq). destruct q as [|b' q]; [discriminate|].
           cbn in Hs, Hq. injection Hs as -> ->. injection Hq as _ Hq.
           by exists q.
      * apply Ascii.eqb_neq in E. split; [discriminate|].
        intros (q & Hs & Hq). destruct q as [|b' q]; [discriminate|].
        cbn in Hs, Hq. injection Hs as -> ->. injection Hq as Hba _.
        contradiction.
Qed.

Lemma ConsumePrefix_underscore (s : string) :
  snd (absl.ConsumePrefix s "_") = strip_one_underscore s.
Proof.
  unfold absl.ConsumePrefix, absl.StartsWith.
  destruct s as [|c s]; [reflexivity|].
  cbn [String.length absl.substr0 strip_one_underscore Nat.leb andb].
  cbn [String.eqb]. destruct (Ascii.eqb c "_"); [|reflexivity].
  by destruct s.
Qed.

Lemma strip_prefix_loop_cons (p : string) (ps : list string) (s : string) :
  strip_prefix_loop (p :: ps) s
  = match strip_ignore_case p s with
    | Some r => strip_one_underscore r
    | None => strip_prefix_loop ps s
    end.
Proof.
  cbn [strip_prefix_loop]. rewrite strip_ignore_case_StartsWith.
  destruct (absl.StartsWithIgnoreCase s p); [|reflexivity].
  apply ConsumePrefix_underscore.
Qed.

(** C4: the normalized name the resolver computes for a declared value is the
    one the specification describes: the raw enum name, its
    screaming-snake-to-upper-camel form and its camel-to-snake form are tried
    in that order as case-insensitive prefixes of the symbolic name; the first
    that matches is stripped together with at most one underscore right after
    it and no further prefix is tried; an empty remainder reverts to the
    symbolic name; the remainder goes through
    [screamingSnakeToUpperCamelCase]; an underscore is put in front when the
    result starts with a digit. *)
Theorem rust_value_name_normalizes
    (desc : EnumDescriptor) (value : EnumValueDescriptor) :
  rust_value_name (prefixes desc) value
  = normalized_name_spec (desc_name desc) (value_name value).
Proof.
  unfold rust_value_name, base_value_name, normalized_name_spec, prefixes.
  rewrite !strip_prefix_loop_cons. cbn [strip_prefix_loop].
  set (stripped := match strip_ignore_case (desc_name desc) (value_name value)
                   with Some r => _ | None => _ end).
  assert (E : (if String.eqb stripped EmptyString then value_name value else stripped)
              = match stripped with EmptyString => value_name value | _ => stripped end).
  { by destruct stripped. }
  rewrite E. clear E.
  set (camel := screamingSnakeToUpperCamelCase _).
  destruct camel as [|c camel']; [reflexivity|].
  unfold string_at. cbn [String.get].
  by destruct (absl.ascii_isdigit c).
Qed.

(** ** Facts about first occurrences *)

Section first_by.
Context {A K : Type} `{EqDecision K} (key : A → K).
Implicit Types (l : list A) (x : A).

Lemma first_by_snoc l x :
  first_by key (l ++ [x])
  = if decide (key x ∈ key <$> l) then first_by key l
    else first_by key l ++ [x].
Proof.
  induction l as [|a l IH]; cbn [app first_by fmap list_fmap].
  - rewrite decide_False; [reflexivity | apply not_elem_of_nil].
  - rewrite IH. destruct (decide (key x ∈ key <$> l)) as [Hin|Hin].
    + rewrite decide_True; [reflexivity | by apply elem_of_cons; right].
    + rewrite filter_app. destruct (decide (key x = key a)) as [E|E].
      * rewrite decide_True; [|apply elem_of_cons; by left].
        rewrite filter_cons_False; [|by intros ?].
        rewrite filter_nil. by rewrite app_nil_r.
      * rewrite decide_False; [|by intros [?|?]%elem_of_cons].
        by rewrite filter_cons_True.
Qed.

Lemma first_by_subseteq l x : x ∈ first_by key l → x ∈ l.
Proof.
  revert x. induction l as [|a l IH]; intros x; cbn [first_by]; [done|].
  intros [-> |Hx]%elem_of_cons; [by left|].
  apply list_elem_of_filter in Hx as [_ Hx]. right. by apply IH.
Qed.

Lemma first_by_keys l k : k ∈ key <$> first_by key l ↔ k ∈ key <$> l.
Proof.
  induction l as [|x l IH] using rev_ind; [done|].
  rewrite first_by_snoc. destruct (decide _) as [Hin|Hin].
  - rewrite IH, fmap_app, elem_of_app. cbn. rewrite list_elem_of_singleton.
    split; [by left|]. intros [?| ->]; done.
  - rewrite !fmap_app, !elem_of_app, IH. done.
Qed.

Lemma first_by_NoDup l : NoDup (key <$> first_by key l).
Proof.
  induction l as [|x l IH] using rev_ind; [constructor|].
  rewrite first_by_snoc. destruct (decide _) as [Hin|Hin]; [done|].
  rewrite fmap_app. apply NoDup_app. split; [done|]. split.
  - intros k Hk ->%list_elem_of_singleton. apply Hin. by apply first_by_keys.
  - apply NoDup_singleton.
Qed.

Lemma first_by_length l : length (first_by key l) ≤ length l.
Proof.
  induction l as [|x l IH] using rev_ind; [done|].
  rewrite first_by_snoc, length_app. cbn.
  destruct (decide _); rewrite ?length_app; cbn; lia.
Qed.

Lemma first_by_length_eq l :
  length (first_by key l) = length l ↔ NoDup (key <$> l).
Proof.
  induction l as [|x l IH] using rev_ind; [split; [constructor | done]|].
  pose proof (first_by_length l) as Hle.
  rewrite first_by_snoc, fmap_app, length_app, NoDup_app. cbn.
  destruct (decide _) as [Hin|Hin].
  - split; [lia|]. intros (_ & Hdisj & _). exfalso.
    apply (Hdisj _ Hin). by apply list_elem_of_singleton.
  - rewrite length_app. cbn. split.
    + intros Hlen. split; [apply IH; lia|]. split; [|apply NoDup_singleton].
      by intros k Hk ->%list_elem_of_singleton.
    + intros (Hnd & _ & _). apply IH in Hnd. lia.
Qed.

Lemma first_by_NoDup_id l : NoDup (key <$> l) → first_by key l = l.
Proof.
  induction l as [|x l IH] using rev_ind; [done|].
  rewrite fmap_app, NoDup_app. intros (Hnd & Hdisj & _).
  rewrite first_by_snoc, IH by done.
  rewrite decide_False; [done|]. intros Hin. apply (Hdisj _ Hin).
  by apply list_elem_of_singleton.
Qed.

(** An element kept by [first_by] is the first of [l] with its key. *)
Lemma first_by_head l x :
  x ∈ first_by key l →
  ∃ rest, filter (λ y, key y = key x) l = x :: rest.
Proof.
  induction l as [|a l IH]; cbn [first_by]; [by intros ?%elem_of_nil|].
  intros [-> |Hx]%elem_of_cons.
  - rewrite filter_cons_True by done. by eexists.
  - apply list_elem_of_filter in Hx as [Hne Hx].
    rewrite filter_cons_False by (intros E; by rewrite E in Hne).
    by apply IH.
Qed.

(** Which positions of [l] survive: those no earlier position shares its
    key with. *)
Lemma elem_of_first_by l x :
  x ∈ first_by key l
  ↔ ∃ i, l !! i = Some x ∧ ∀ j y, j < i → l !! j = Some y → key y ≠ key x.
Proof.
  induction l as [|z l IH] using rev_ind.
  - split; [by intros ?%elem_of_nil | by intros (i & ? & _)].
  - rewrite first_by_snoc. split.
    + intros Hx.
      assert (x ∈ first_by key l ∨ (x = z ∧ key z ∉ key <$> l)) as [Hin|[-> Hz]].
      { destruct (decide _); [by left|].
        apply elem_of_app in Hx as [?| ->%list_elem_of_singleton]; auto. }
      * apply IH in Hin as (i & Hi & Hfirst). exists i.
        split; [by apply lookup_app_l_Some|].
        intros j y Hj Hy. apply (Hfirst j y Hj).
        rewrite lookup_app_l in Hy; [done|].
        apply lookup_lt_Some in Hi. lia.
      * exists (length l). split.
        { rewrite lookup_app_r by lia. by rewrite Nat.sub_diag. }
        intros j y Hj Hy E. rewrite lookup_app_l in Hy by done.
        apply Hz. rewrite <- E. apply list_elem_of_fmap_2.
        by eapply list_elem_of_lookup_2.
    + intros (i & Hi & Hfirst).
      destruct (decide (i < length l)) as [Hlt|Hge].
      * rewrite lookup_app_l in Hi by done.
        assert (x ∈ first_by key l) as Hin.
        { apply IH. exists i. split; [done|]. intros j y Hj Hy.
          apply (Hfirst j y Hj). by apply lookup_app_l_Some. }
        destruct (decide _); [done | apply elem_of_app; by left].
      * rewrite lookup_app_r in Hi by lia.
        destruct (i - length l) as [|n] eqn:En; [|by destruct n].
        cbn in Hi. injection Hi as ->.
        rewrite decide_False; [apply elem_of_app; right; by left|].
        intros (y & E & Hy)%list_elem_of_fmap.
        apply list_elem_of_lookup in Hy as [j Hj].
        apply (Hfirst j y); [|by apply lookup_app_l_Some|done].
        apply lookup_lt_Some in Hj. lia.
Qed.

End first_by.

(** ** The resolver loop computes the canonical list *)

Section resolver.
Variable pfx : list string.
Implicit Types (vs rs : list EnumValueDescriptor) (v u : EnumValueDescriptor).

Local Abbreviation nm := (rust_value_name pfx).

Lemma retained_snoc vs v :
  retained pfx (vs ++ [v])
  = if decide (nm v ∈ nm <$> vs) then retained pfx vs
    else retained pfx vs ++ [v].
Proof. apply first_by_snoc. Qed.

Lemma retained_names vs s : s ∈ nm <$> retained pfx vs ↔ s ∈ nm <$> vs.
Proof. apply first_by_keys. Qed.

Lemma canonical_list_numbers vs :
  number <$> canonical_list pfx vs
  = value_number <$> first_by value_number (retained pfx vs).
Proof.
  unfold canonical_list. rewrite <- list_fmap_compose.
  by apply list_fmap_ext.
Qed.

Lemma canonical_entry_snoc_other rs v u :
  value_number u ≠ value_number v →
  canonical_entry pfx (rs ++ [v]) u = canonical_entry pfx rs u.
Proof.
  intros Hne. unfold canonical_entry, with_number.
  rewrite filter_app, filter_cons_False by (intros E; by rewrite E in Hne).
  by rewrite filter_nil, app_nil_r.
Qed.

Lemma canonical_entry_snoc_same rs v u :
  u ∈ first_by value_number rs →
  value_number u = value_number v →
  canonical_entry pfx (rs ++ [v]) u
  = push_alias (nm v) (canonical_entry pfx rs u).
Proof.
  intros Hu E. apply first_by_head in Hu as [rest Hrest].
  unfold canonical_entry, push_alias, with_number. cbn. f_equal.
  rewrite filter_app, filter_cons_True by done.
  rewrite filter_nil, Hrest. cbn. by rewrite fmap_app.
Qed.

Lemma canonical_list_snoc_discard vs v :
  nm v ∈ nm <$> vs → canonical_list pfx (vs ++ [v]) = canonical_list pfx vs.
Proof.
  intros Hin. unfold canonical_list. rewrite retained_snoc.
  by rewrite decide_True.
Qed.

Lemma canonical_list_snoc_new vs v :
  nm v ∉ nm <$> vs →
  value_number v ∉ number <$> canonical_list pfx vs →
  canonical_list pfx (vs ++ [v])
  = canonical_list pfx vs ++
      [ {| name := nm v; number := value_number v; aliases := [] |} ].
Proof.
  intros Hname Hnum. rewrite canonical_list_numbers, first_by_keys in Hnum.
  unfold canonical_list. rewrite retained_snoc, decide_False by done.
  set (rs := retained pfx vs) in *.
  rewrite first_by_snoc, decide_False by done.
  rewrite fmap_app. f_equal.
  - apply list_fmap_ext. intros i u Hu. apply canonical_entry_snoc_other.
    intros E. apply Hnum. rewrite <- E. apply list_elem_of_fmap_2.
    eapply first_by_subseteq, list_elem_of_lookup_2, Hu.
  - cbn. unfold canonical_entry, with_number. f_equal. f_equal.
    rewrite filter_app, filter_cons_True, filter_nil by done.
    assert (filter (λ u, value_number u = value_number v) rs = []) as ->; [|done].
    apply elem_of_nil_inv. intros u [E Hu]%list_elem_of_filter.
    apply Hnum. rewrite <- E. by apply list_elem_of_fmap_2.
Qed.

Lemma canonical_list_snoc_alias vs v i e :
  nm v ∉ nm <$> vs →
  canonical_list pfx vs !! i = Some e →
  number e = value_number v →
  canonical_list pfx (vs ++ [v])
  = alter (push_alias (nm v)) i (canonical_list pfx vs).
Proof.
  intros Hname Hi He. unfold canonical_list in *.
  rewrite retained_snoc, decide_False by done.
  set (rs := retained pfx vs) in *.
  rewrite list_lookup_fmap in Hi.
  destruct (first_by value_number rs !! i) as [u|] eqn:Hu; [|done].
  cbn in Hi. injection Hi as <-. cbn in He.
  rewrite first_by_snoc, decide_True; last first.
  { rewrite <- He. apply list_elem_of_fmap_2.
    eapply first_by_subseteq, list_elem_of_lookup_2, Hu. }
  apply list_eq. intros j. rewrite list_lookup_fmap.
  destruct (decide (i = j)) as [<-|Hij].
  - rewrite list_lookup_alter_eq, list_lookup_fmap, Hu. cbn. f_equal.
    apply canonical_entry_snoc_same; [|done].
    by eapply list_elem_of_lookup_2.
  - rewrite list_lookup_alter_ne, list_lookup_fmap by done.
    destruct (first_by value_number rs !! j) as [w|] eqn:Hw; [|done].
    cbn. f_equal. apply canonical_entry_snoc_other. intros E. apply Hij.
    eapply (NoDup_lookup (value_number <$> first_by value_number rs));
      [apply first_by_NoDup | | ].
    + rewrite list_lookup_fmap, Hu. cbn. reflexivity.
    + rewrite list_lookup_fmap, Hw. cbn. by rewrite E, He.
Qed.

(** The invariant of the outer loop of [enumValues], after the values [vs]:
    [seen_by_name] holds the normalized names met so far, [result] is the
    canonical list of [vs], and [seen_by_number] points at the entry of
    each number. *)
Lemma enumValues_run_invariant vs :
  let st := enumValues_run pfx vs in
  (∀ s, s ∈ seen_by_name st ↔ s ∈ nm <$> vs)
  ∧ result st = canonical_list pfx vs
  ∧ (∀ k i, seen_by_number st !! k = Some i
            ↔ number <$> result st !! i = Some k).
Proof.
  induction vs as [|v vs IH] using rev_ind.
  - cbn. split; [|split; [done|]].
    + intros s. rewrite elem_of_nil. set_solver.
    + intros k i. rewrite lookup_empty. done.
  - unfold enumValues_run in *. rewrite fold_left_app. cbn [fold_left].
    set (st := fold_left (enumValues_body pfx) vs enumValues_init) in *.
    cbn zeta in IH. destruct IH as (Hnames & Hres & Hnums).
    unfold enumValues_body.
    destruct (decide (nm v ∈ seen_by_name st)) as [Hseen|Hseen].
    { apply Hnames in Hseen. split; [|split].
      - intros s. rewrite Hnames, fmap_app, elem_of_app. cbn.
        rewrite list_elem_of_singleton. split; [by left|].
        intros [?| ->]; done.
      - by rewrite canonical_list_snoc_discard.
      - done. }
    rewrite Hnames in Hseen.
    assert (Hnames' : ∀ s, s ∈ {[nm v]} ∪ seen_by_name st
                           ↔ s ∈ nm <$> vs ++ [v]).
    { intros s. rewrite fmap_app, elem_of_app, elem_of_union, Hnames. cbn.
      rewrite list_elem_of_singleton, elem_of_singleton. tauto. }
    destruct (seen_by_number st !! value_number v) as [it|] eqn:Hit.
    + apply Hnums in Hit.
      destruct (result st !! it) as [e|] eqn:He; [|done].
      cbn in Hit. injection Hit as Hit.
      cbn [seen_by_name seen_by_number result].
      split; [done|]. split.
      * rewrite Hres in He |- *. symmetry.
        by eapply canonical_list_snoc_alias.
      * intros k i. rewrite Hnums. rewrite list_lookup_alter.
        destruct (decide (it = i)) as [<-|]; [|done].
        rewrite He. done.
    + cbn [seen_by_name seen_by_number result].
      assert (Hfresh : value_number v ∉ number <$> result st).
      { intros (e & E & [i Hi]%list_elem_of_lookup)%list_elem_of_fmap.
        assert (seen_by_number st !! value_number v = Some i) as Hsome.
        { apply Hnums. by rewrite Hi, E. }
        by rewrite Hit in Hsome. }
      split; [done|]. split.
      * rewrite Hres in Hfresh |- *. symmetry.
        by apply canonical_list_snoc_new.
      * intros k i. rewrite lookup_insert. case_decide as Hk.
        -- subst k. split.
           ++ intros [= <-]. rewrite lookup_app_r by lia.
              by rewrite Nat.sub_diag.
           ++ intros Hi. f_equal.
              destruct (decide (i < length (result st))) as [Hlt|Hge].
              ** rewrite lookup_app_l in Hi by done.
                 apply Hnums in Hi. by rewrite Hit in Hi.
              ** rewrite lookup_app_r in Hi by lia.
                 destruct (i - length (result st)) as [|n] eqn:En;
                   [lia | by destruct n].
        -- rewrite Hnums. destruct (decide (i < length (result st))) as [Hlt|Hge].
           ++ by rewrite lookup_app_l.
           ++ rewrite lookup_app_r by lia.
              rewrite (lookup_ge_None_2 (result st) i) by lia.
              destruct (i - length (result st)) as [|n] eqn:En.
              ** cbn. split; [done|]. intros [= E]. by rewrite E in Hk.
              ** by destruct n.
Qed.

Lemma enumValues_run_result vs :
  result (enumValues_run pfx vs) = canonical_list pfx vs.
Proof. apply enumValues_run_invariant. Qed.

Lemma enumValues_run_seen_by_name vs s :
  s ∈ seen_by_name (enumValues_run pfx vs) ↔ s ∈ nm <$> vs.
Proof. apply enumValues_run_invariant. Qed.

Lemma canonical_entry_names rs u :
  u ∈ first_by value_number rs →
  name (canonical_entry pfx rs u) :: aliases (canonical_entry pfx rs u)
  = nm <$> with_number (value_number u) rs.
Proof.
  intros [rest Hrest]%first_by_head. unfold canonical_entry, with_number.
  cbn. by rewrite Hrest.
Qed.

Lemma canonical_list_names vs (c : RustEnumValue) :
  c ∈ canonical_list pfx vs →
  name c :: aliases c = nm <$> with_number (number c) (retained pfx vs).
Proof.
  intros (u & -> & Hu)%list_elem_of_fmap. by apply canonical_entry_names.
Qed.

Lemma recorded_names_canonical_list vs s :
  s ∈ recorded_names (canonical_list pfx vs) ↔ s ∈ nm <$> vs.
Proof.
  rewrite <- retained_names. unfold recorded_names.
  rewrite list_elem_of_bind. split.
  - intros (c & Hs & Hc). rewrite (canonical_list_names vs c Hc) in Hs.
    apply list_elem_of_fmap in Hs as (w & -> & Hw).
    apply list_elem_of_filter in Hw as [_ Hw]. by apply list_elem_of_fmap_2.
  - intros (w & -> & Hw)%list_elem_of_fmap.
    assert (value_number w ∈ value_number <$> first_by value_number (retained pfx vs))
      as (u & E & Hu)%list_elem_of_fmap.
    { apply first_by_keys. by apply list_elem_of_fmap_2. }
    exists (canonical_entry pfx (retained pfx vs) u). split.
    + rewrite canonical_entry_names by done. apply list_elem_of_fmap_2.
      apply list_elem_of_filter. by split.
    + unfold canonical_list. by apply list_elem_of_fmap_2.
Qed.

End resolver.

(** ** Properties of the alias resolver *)

Lemma enumValues_canonical_list (desc : EnumDescriptor) :
  enumValues desc = canonical_list (prefixes desc) (desc_values desc).
Proof. apply enumValues_run_result. Qed.

(** [result] never outgrows the capacity reserved for it, so the pointers
    kept in [seen_by_number] stay valid: after any number of iterations it
    holds at most one entry per value processed. *)
Lemma enumValues_within_reserve (desc : EnumDescriptor)
    (pre post : list EnumValueDescriptor) :
  desc_values desc = pre ++ post →
  length (result (enumValues_run (prefixes desc) pre)) ≤ value_count desc.
Proof.
  intros E. rewrite enumValues_run_result. unfold canonical_list, value_count.
  rewrite E, length_fmap, length_app.
  pose proof (first_by_length (rust_value_name (prefixes desc)) pre).
  pose proof (first_by_length value_number (retained (prefixes desc) pre)).
  unfold retained in *. lia.
Qed.

(** C3: while the resolver runs, the declared value [v] that follows the
    values [pre] is discarded exactly when its normalized name is already
    recorded, as a canonical name or an alias, which is exactly when an
    earlier declared value has the same normalized name, whatever the
    numbers. A discarded value leaves the resolver's state as it was (no
    entry, no alias, no error); any other value has its name recorded, so the
    first occurrence of a normalized name wins. *)
Theorem enumValues_discards_on_name_collision
    (desc : EnumDescriptor) (pre post : list EnumValueDescriptor)
    (v : EnumValueDescriptor) :
  desc_values desc = pre ++ v :: post →
  let pfx := prefixes desc in
  let st := enumValues_run pfx pre in
  enumValues desc
  = result (fold_left (enumValues_body pfx) post (enumValues_body pfx st v))
  ∧ (outcome_of pfx st v = Discarded
     ↔ rust_value_name pfx v ∈ recorded_names (result st))
  ∧ (outcome_of pfx st v = Discarded
     ↔ ∃ u, u ∈ pre ∧ rust_value_name pfx u = rust_value_name pfx v)
  ∧ (outcome_of pfx st v = Discarded → enumValues_body pfx st v = st)
  ∧ (outcome_of pfx st v ≠ Discarded →
     (rust_value_name pfx v ∉ recorded_names (result st))
     ∧ (rust_value_name pfx v
        ∈ recorded_names (result (enumValues_body pfx st v)))).
Proof.
  intros Hvs pfx st.
  assert (Hout : outcome_of pfx st v = Discarded
                 ↔ rust_value_name pfx v ∈ rust_value_name pfx <$> pre).
  { unfold outcome_of. rewrite <- (enumValues_run_seen_by_name pfx pre).
    fold st. destruct (decide _) as [Hin|Hin]; [done|].
    split; [|done]. by destruct (seen_by_number st !! value_number v). }
  assert (Hstep : enumValues_body pfx st v = enumValues_run pfx (pre ++ [v])).
  { unfold enumValues_run. by rewrite fold_left_app. }
  split; [|split; [|split; [|split]]].
  - unfold enumValues, enumValues_run. fold pfx. rewrite Hvs.
    by rewrite fold_left_app.
  - rewrite Hout. unfold st. rewrite enumValues_run_result.
    by rewrite recorded_names_canonical_list.
  - rewrite Hout, list_elem_of_fmap. split.
    + intros (u & E & Hu). by exists u.
    + intros (u & Hu & E). by exists u.
  - unfold outcome_of, enumValues_body. destruct (decide _); [done|].
    by destruct (seen_by_number st !! value_number v).
  - intros Hkept. rewrite Hstep. unfold st.
    rewrite !enumValues_run_result, !recorded_names_canonical_list. split.
    + intros Hin. by apply Hkept, Hout.
    + rewrite fmap_app, elem_of_app. right. by left.
Qed.

Lemma enumValues_discards_on_name_collision_witness :
  let desc := {| desc_name := "E";
                 desc_values := [ev "A" 0; ev "B" 1; ev "B_ALIAS" 1; ev "A" 0];
                 is_closed := false |} in
  outcome_of (prefixes desc)
             (enumValues_run (prefixes desc) [ev "A" 0; ev "B" 1; ev "B_ALIAS" 1])
             (ev "A" 0) = Discarded
  ↔ ∃ u, u ∈ [ev "A" 0; ev "B" 1; ev "B_ALIAS" 1]
         ∧ rust_value_name (prefixes desc) u
           = rust_value_name (prefixes desc) (ev "A" 0).
Proof.
  intros desc.
  exact (proj1 (proj2 (proj2
    (enumValues_discards_on_name_collision desc
       [ev "A" 0; ev "B" 1; ev "B_ALIAS" 1] [] (ev "A" 0) eq_refl)))).
Defined.

(** C6 (as amended): the resolver never returns more canonical values than
    there are declared values, and returns as many exactly when no two
    declared values normalize to the same name and no two declared values
    have the same number. *)
Theorem enumValues_count (desc : EnumDescriptor) :
  length (enumValues desc) ≤ value_count desc
  ∧ (length (enumValues desc) = value_count desc
     ↔ NoDup (rust_value_name (prefixes desc) <$> desc_values desc)
       ∧ NoDup (value_number <$> desc_values desc)).
Proof.
  rewrite enumValues_canonical_list. unfold canonical_list, value_count, retained.
  rewrite length_fmap.
  set (nm := rust_value_name (prefixes desc)). set (vs := desc_values desc).
  pose proof (first_by_length nm vs) as H1.
  pose proof (first_by_length value_number (first_by nm vs)) as H2.
  split; [lia|]. split.
  - intros Hlen.
    assert (Hnames : NoDup (nm <$> vs)) by (apply first_by_length_eq; lia).
    split; [done|]. rewrite (first_by_NoDup_id nm vs Hnames) in Hlen.
    by apply first_by_length_eq.
  - intros [Hnames Hnums]. rewrite (first_by_NoDup_id nm vs Hnames).
    by rewrite (first_by_NoDup_id value_number vs Hnums).
Qed.

(** C6 as stated fails: [A = 0] and [B = 0] normalize to different names, yet
    they share one canonical value, so one canonical value stands for two
    declared values. *)
Lemma enumValues_count_alias_counterexample :
  let desc := {| desc_name := "E"; desc_values := [ev "A" 0; ev "B" 0];
                 is_closed := false |} in
  NoDup (rust_value_name (prefixes desc) <$> desc_values desc)
  ∧ length (enumValues desc) = 1
  ∧ value_count desc = 2
  ∧ ¬ (length (enumValues desc) = value_count desc
       ↔ NoDup (rust_value_name (prefixes desc) <$> desc_values desc)).
Proof.
  intros desc.
  assert (Hnd : NoDup (rust_value_name (prefixes desc) <$> desc_values desc)).
  { apply (bool_decide_unpack _). vm_compute. exact I. }
  split; [exact Hnd|]. split; [reflexivity|]. split; [reflexivity|].
  intros [_ H]. specialize (H Hnd). vm_compute in H. discriminate.
Qed.

(** C7: in the resolver's output no two canonical values have the same
    number; the names under a canonical value (its own, then its aliases) are
    the normalized names of the retained declared values with that number, in
    declaration order, so each alias sits under the entry of its own declared
    number; and the numbers of the canonical list are the distinct numbers of
    the retained declared values in order of first appearance. *)
Theorem enumValues_numbers_unique_and_ordered (desc : EnumDescriptor) :
  let pfx := prefixes desc in
  let kept := retained pfx (desc_values desc) in
  NoDup (number <$> enumValues desc)
  ∧ (∀ c, c ∈ enumValues desc →
       name c :: aliases c = rust_value_name pfx <$> with_number (number c) kept)
  ∧ (∀ c a, c ∈ enumValues desc → a ∈ aliases c →
       ∃ v, v ∈ kept ∧ rust_value_name pfx v = a ∧ value_number v = number c)
  ∧ number <$> enumValues desc = value_number <$> first_by value_number kept.
Proof.
  intros pfx kept. rewrite enumValues_canonical_list. fold pfx.
  split; [|split; [|split]].
  - rewrite canonical_list_numbers. apply first_by_NoDup.
  - intros c Hc. by apply canonical_list_names.
  - intros c a Hc Ha.
    assert (a ∈ rust_value_name pfx <$> with_number (number c) kept)
      as (v & -> & Hv)%list_elem_of_fmap.
    { unfold kept. rewrite <- (canonical_list_names pfx _ c Hc). by right. }
    apply list_elem_of_filter in Hv as [E Hv]. by exists v.
  - apply canonical_list_numbers.
Qed.

(** ** One run of the emitter *)

Lemma Gen_bind_run {A B : Type} (m : Gen A) (f : A → Gen B) (s : Sink) :
  (m ≫= f) s
  = match m s with
    | (s', Some a) => f a s'
    | (s', None) => (s', None)
    end.
Proof. reflexivity. Qed.

Lemma for_each_Emit {A : Type} (f : A → RustItem) (l : list A) (s : Sink) :
  for_each (λ x, Emit (f x)) l s = (s ++ (f <$> l), Some ()).
Proof.
  revert s. induction l as [|x l IH]; intros s; cbn [for_each fmap list_fmap].
  - by rewrite app_nil_r.
  - rewrite Gen_bind_run. unfold Emit at 1. rewrite IH.
    by rewrite <- app_assoc.
Qed.

Lemma emit_variants_run (enum_name : string) (values : list RustEnumValue)
    (s : Sink) :
  emit_variants enum_name values s
  = (s ++ variant_items enum_name values, Some ()).
Proof.
  unfold emit_variants, variant_items. revert s.
  induction values as [|value values IH]; intros s; cbn [for_each].
  - cbn. by rewrite app_nil_r.
  - rewrite !Gen_bind_run. unfold Emit at 1. rewrite for_each_Emit, IH.
    cbn [mbind list_bind]. by rewrite <- !app_assoc.
Qed.

Section EmitterFacts.
Variable UnderscoresToCamelCase : string → bool → string.

Local Abbreviation Generate := (GenerateEnumDefinition UnderscoresToCamelCase).
Local Abbreviation type_name := (enumName UnderscoresToCamelCase).

Lemma GenerateEnumDefinition_empty (desc : EnumDescriptor) (s : Sink) :
  desc_values desc = [] → Generate desc s = (s, None).
Proof.
  intros E. unfold GenerateEnumDefinition, value_count. rewrite E.
  reflexivity.
Qed.

Lemma GenerateEnumDefinition_run (desc : EnumDescriptor)
    (first : EnumValueDescriptor) (rest : list EnumValueDescriptor) (s : Sink) :
  desc_values desc = first :: rest →
  Generate desc s = (s ++ generated_items (type_name desc) desc first, Some ()).
Proof.
  intros E. unfold GenerateEnumDefinition, value_count, value_number_at, value.
  rewrite E. cbn [length Nat.ltb Nat.leb lookup list_lookup].
  rewrite Gen_bind_run. cbn [ABSL_CHECK].
  rewrite Gen_bind_run. unfold Emit at 1.
  rewrite Gen_bind_run, emit_variants_run.
  unfold generated_items, emit_impl_from_i32.
  destruct (is_closed desc);
    repeat (rewrite Gen_bind_run; unfold Emit at 1);
    unfold Emit; rewrite <- !app_assoc; reflexivity.
Qed.

End EmitterFacts.

(** ** Reading the emitted blocks *)

Lemma variant_items_consts (enum_name : string) (values : list RustEnumValue) :
  Forall is_AssocConst (variant_items enum_name values).
Proof.
  apply Forall_forall. intros item (value & Hitem & _)%list_elem_of_bind.
  apply elem_of_cons in Hitem as [-> | (alias & -> & _)%list_elem_of_fmap];
    exact I.
Qed.

Lemma from_integer_skip_consts (consts rest : list RustItem) (val : Z) :
  Forall is_AssocConst consts →
  Generated.from_integer (consts ++ rest) val = Generated.from_integer rest val.
Proof.
  induction 1 as [|item consts Hitem _ IH]; [reflexivity|].
  destruct item; try contradiction. exact IH.
Qed.

Lemma to_integer_skip_consts (consts rest : list RustItem) (v : Generated.Enum) :
  Forall is_AssocConst consts →
  Generated.to_integer (consts ++ rest) v = Generated.to_integer rest v.
Proof.
  induction 1 as [|item consts Hitem _ IH]; [reflexivity|].
  destruct item; try contradiction. exact IH.
Qed.

Lemma default_skip_consts (consts rest : list RustItem) :
  Forall is_AssocConst consts →
  Generated.default (consts ++ rest) = Generated.default rest.
Proof.
  induction 1 as [|item consts Hitem _ IH]; [reflexivity|].
  destruct item; try contradiction. exact IH.
Qed.

Lemma matches_elem_of (val : Z) (pattern : list Z) :
  Generated.matches val pattern = true ↔ val ∈ pattern.
Proof.
  unfold Generated.matches. rewrite existsb_exists. split.
  - intros (x & Hx & ->%Z.eqb_eq). by apply list_elem_of_In.
  - intros Hin. exists val. split; [by apply list_elem_of_In | apply Z.eqb_refl].
Qed.

Lemma kept_number_retained (pfx : list string) (vs : list EnumValueDescriptor)
    (n : Z) :
  kept_number pfx vs n ↔ n ∈ value_number <$> retained pfx vs.
Proof.
  unfold kept_number, retained. rewrite list_elem_of_fmap. split.
  - intros (i & v & Hi & <- & Hfirst). exists v. split; [done|].
    apply elem_of_first_by. by exists i.
  - intros (v & -> & (i & Hi & Hfirst)%elem_of_first_by). by exists i, v.
Qed.

Lemma known_values_pattern_kept (desc : EnumDescriptor) (n : Z) :
  n ∈ known_values_pattern (enumValues desc)
  ↔ kept_number (prefixes desc) (desc_values desc) n.
Proof.
  unfold known_values_pattern.
  rewrite enumValues_canonical_list, canonical_list_numbers, first_by_keys.
  by rewrite kept_number_retained.
Qed.

(** ** Properties of the generated conversions *)

Section Conversions.
Variable UnderscoresToCamelCase : string → bool → string.

Local Abbreviation Generate := (GenerateEnumDefinition UnderscoresToCamelCase).
Local Abbreviation type_name := (enumName UnderscoresToCamelCase).

(** C1 (as amended): for a closed enum with at least one declared value,
    the generated [try_from] accepts [n] exactly when [n] is the number of a
    declared value that the resolver did not discard for its name (a value
    collapsed as an alias counts, a value discarded by name collision does
    not); an accepted [n] is stored as it is and converts back to [n]; a
    rejected [n] yields [UnknownEnumValue] carrying [n]. *)
Theorem closed_try_from_accepts_kept_numbers (desc : EnumDescriptor) :
  is_closed desc = true →
  desc_values desc ≠ [] →
  ∃ items,
    Generate desc [] = (items, Some ())
    ∧ ∀ n,
        (kept_number (prefixes desc) (desc_values desc) n →
           Generated.from_integer items n
           = Some (Generated.Ok (Generated.Self n))
           ∧ Generated.to_integer items (Generated.Self n) = Some n)
        ∧ (¬ kept_number (prefixes desc) (desc_values desc) n →
           Generated.from_integer items n
           = Some (Generated.Err (Generated.UnknownEnumValue_new n))).
Proof.
  intros Hclosed Hne.
  destruct (desc_values desc) as [|first rest] eqn:E; [done|].
  exists (generated_items (type_name desc) desc first).
  split; [by rewrite (GenerateEnumDefinition_run _ desc first rest [] E)|].
  intros n. unfold generated_items. rewrite Hclosed.
  cbn [Generated.from_integer Generated.to_integer].
  rewrite from_integer_skip_consts, to_integer_skip_consts
    by apply variant_items_consts.
  cbn [Generated.from_integer Generated.to_integer Generated.into_i32].
  unfold Generated.try_from. rewrite <- E.
  split; intros Hn.
  - apply known_values_pattern_kept, matches_elem_of in Hn. by rewrite Hn.
  - destruct (Generated.matches n _) eqn:Hm; [|done].
    by apply matches_elem_of, known_values_pattern_kept in Hm.
Qed.

(** C2: for an open enum with at least one declared value, the generated
    conversion from a 32-bit integer [n] always succeeds, stores [n] as it
    is, and converting the value back returns [n], whether or not [n] is a
    declared number. *)
Theorem open_from_round_trip (desc : EnumDescriptor) (n : Z) (s : Sink) :
  is_closed desc = false →
  desc_values desc ≠ [] →
  i32_range n →
  ∃ out,
    Generate desc s = (s ++ out, Some ())
    ∧ Generated.from_integer out n = Some (Generated.Ok (Generated.Self n))
    ∧ Generated.to_integer out (Generated.Self n) = Some n.
Proof.
  intros Hopen Hne _.
  destruct (desc_values desc) as [|first rest] eqn:E; [done|].
  exists (generated_items (type_name desc) desc first).
  split; [by apply (GenerateEnumDefinition_run _ desc first rest s E)|].
  unfold generated_items. rewrite Hopen.
  cbn [Generated.from_integer Generated.to_integer].
  rewrite from_integer_skip_consts, to_integer_skip_consts
    by apply variant_items_consts.
  done.
Qed.

(** C8: for a schema with at least one declared value, the default of the
    generated type is the number of the first declared value, whatever the
    resolver discards or collapses. *)
Theorem default_is_first_declared_number (desc : EnumDescriptor)
    (first : EnumValueDescriptor) (rest : list EnumValueDescriptor) (s : Sink) :
  desc_values desc = first :: rest →
  ∃ out,
    Generate desc s = (s ++ out, Some ())
    ∧ value desc 0 = Some first
    ∧ Generated.default out = Some (Generated.Self (value_number first)).
Proof.
  intros E. exists (generated_items (type_name desc) desc first).
  split; [by apply (GenerateEnumDefinition_run _ desc first rest s E)|].
  split; [unfold value; by rewrite E|].
  unfold generated_items. cbn [Generated.default].
  rewrite default_skip_consts by apply variant_items_consts.
  by destruct (is_closed desc).
Qed.

(** C9: generation fails exactly when the schema declares no value; the
    failed run leaves the sink as it found it, and a run on a schema with at
    least one declared value completes and appends output. *)
Theorem generation_fails_iff_no_values (desc : EnumDescriptor) (s : Sink) :
  (snd (Generate desc s) = None ↔ desc_values desc = [])
  ∧ (desc_values desc = [] → Generate desc s = (s, None))
  ∧ (desc_values desc ≠ [] →
     ∃ out, out ≠ [] ∧ Generate desc s = (s ++ out, Some ())).
Proof.
  destruct (desc_values desc) as [|first rest] eqn:E.
  - rewrite (GenerateEnumDefinition_empty _ desc s E). by repeat split.
  - rewrite (GenerateEnumDefinition_run _ desc first rest s E).
    split; [by split|]. split; [done|]. intros _.
    by exists (generated_items (type_name desc) desc first).
Qed.

End Conversions.

(** ** The theorems at concrete schemas *)

(** C1 as stated fails: in the closed enum [Color], [Red = 1] normalizes to
    the name [COLOR_RED = 0] already has and is discarded, so [1] is a declared
    number that the generated [try_from] rejects. *)
Lemma closed_try_from_rejects_discarded_number :
  1%Z ∈ value_number <$> desc_values color_closed
  ∧ is_closed color_closed = true
  ∧ Generated.from_integer
      (fst (GenerateEnumDefinition keep_name color_closed [])) 1
    = Some (Generated.Err (Generated.UnknownEnumValue_new 1)).
Proof.
  split; [|split; reflexivity].
  apply list_elem_of_In. cbn. tauto.
Qed.

Lemma closed_try_from_accepts_kept_numbers_witness :
  ∃ items,
    GenerateEnumDefinition keep_name color_closed [] = (items, Some ())
    ∧ ∀ n,
        (kept_number (prefixes color_closed) (desc_values color_closed) n →
           Generated.from_integer items n
           = Some (Generated.Ok (Generated.Self n))
           ∧ Generated.to_integer items (Generated.Self n) = Some n)
        ∧ (¬ kept_number (prefixes color_closed) (desc_values color_closed) n →
           Generated.from_integer items n
           = Some (Generated.Err (Generated.UnknownEnumValue_new n))).
Proof.
  apply (closed_try_from_accepts_kept_numbers keep_name color_closed).
  - reflexivity.
  - discriminate.
Defined.

Lemma open_from_round_trip_witness :
  ∃ out,
    GenerateEnumDefinition keep_name color_open [] = ([] ++ out, Some ())
    ∧ Generated.from_integer out 99 = Some (Generated.Ok (Generated.Self 99))
    ∧ Generated.to_integer out (Generated.Self 99) = Some 99%Z.
Proof.
  apply (open_from_round_trip keep_name color_open 99 []).
  - reflexivity.
  - discriminate.
  - unfold i32_range. lia.
Defined.

Lemma default_is_first_declared_number_witness :
  ∃ out,
    GenerateEnumDefinition keep_name color_closed [] = ([] ++ out, Some ())
    ∧ value color_closed 0 = Some (ev "COLOR_RED" 0)
    ∧ Generated.default out = Some (Generated.Self 0).
Proof.
  apply (default_is_first_declared_number keep_name color_closed
           (ev "COLOR_RED" 0)
           [ev "Red" 1; ev "COLOR_BLUE" 2; ev "COLOR_AZURE" 2] []).
  reflexivity.
Defined.

Lemma generation_fails_iff_no_values_witness :
  GenerateEnumDefinition keep_name no_values [] = ([], None)
  ∧ ∃ out, out ≠ []
           ∧ GenerateEnumDefinition keep_name color_open [] = ([] ++ out, Some ()).
Proof.
  split.
  - apply (proj1 (proj2 (generation_fails_iff_no_values keep_name no_values []))).
    reflexivity.
  - apply (proj2 (proj2 (generation_fails_iff_no_values keep_name color_open []))).
    discriminate.
Defined.

(** ** More about the identifier normalizer *)

Lemma chars_inj (a b : string) : chars a = chars b → a = b.
Proof.
  intros H. rewrite <- (string_of_list_ascii_of_string a).
  rewrite <- (string_of_list_ascii_of_string b). by rewrite H.
Qed.

Lemma length_chars (s : string) : length (chars s) = String.length s.
Proof. induction s as [|c s IH]; simpl; [reflexivity | by rewrite IH]. Qed.

Lemma tolower_fixes_non_upper (c : ascii) :
  absl.ascii_isupper c = false → absl.ascii_tolower c = c.
Proof. unfold absl.ascii_tolower. by intros ->. Qed.

Lemma tolower_keeps_non_underscore (c : ascii) :
  Ascii.eqb (absl.ascii_tolower c) "_" = Ascii.eqb c "_".
Proof. by destruct c as [[] [] [] [] [] [] [] []]. Qed.

Lemma tolower_idempotent (c : ascii) :
  absl.ascii_tolower (absl.ascii_tolower c) = absl.ascii_tolower c.
Proof. by destruct c as [[] [] [] [] [] [] [] []]. Qed.

Lemma isalpha_tolower (c : ascii) :
  absl.ascii_isalpha (absl.ascii_tolower c) = absl.ascii_isalpha c.
Proof. by destruct c as [[] [] [] [] [] [] [] []]. Qed.

Lemma isalpha_toupper (c : ascii) :
  absl.ascii_isalpha (absl.ascii_toupper c) = absl.ascii_isalpha c.
Proof. by destruct c as [[] [] [] [] [] [] [] []]. Qed.

Lemma isdigit_tolower (c : ascii) :
  absl.ascii_isdigit (absl.ascii_tolower c) = absl.ascii_isdigit c.
Proof. by destruct c as [[] [] [] [] [] [] [] []]. Qed.

Lemma toupper_tolower (c : ascii) :
  absl.ascii_toupper (absl.ascii_tolower c) = absl.ascii_toupper c.
Proof. by destruct c as [[] [] [] [] [] [] [] []]. Qed.

Lemma toupper_tolower_upper (c : ascii) :
  absl.ascii_isupper c = true → absl.ascii_toupper (absl.ascii_tolower c) = c.
Proof. by destruct c as [[] [] [] [] [] [] [] []]. Qed.

Lemma tolower_non_alpha (c : ascii) :
  absl.ascii_isalpha c = false → absl.ascii_tolower c = c.
Proof. by destruct c as [[] [] [] [] [] [] [] []]. Qed.

Lemma digit_not_alpha (c : ascii) :
  absl.ascii_isdigit c = true → absl.ascii_isalpha c = false.
Proof. by destruct c as [[] [] [] [] [] [] [] []]. Qed.

Lemma underscore_not_alnum : ascii_isalnum "_" = false.
Proof. reflexivity. Qed.

(** The accumulator of either loop is only ever appended to. *)
Lemma camelToSnakeCase_loop_acc (input : string) :
  ∀ acc b,
    chars (camelToSnakeCase_loop input acc b)
    = chars acc ++ chars (camelToSnakeCase_loop input EmptyString b).
Proof.
  induction input as [|c rest IH]; intros acc b; cbn [camelToSnakeCase_loop].
  - cbn. by rewrite app_nil_r.
  - destruct (Ascii.eqb c "_").
    + rewrite IH, (IH (EmptyString +:+ _)), !chars_app. cbn.
      by rewrite <- app_assoc.
    + destruct (negb b && absl.ascii_isupper c);
        rewrite IH, (IH (_ +:+ _)), !chars_app; cbn;
        by rewrite <- !app_assoc.
Qed.

Lemma screamingSnake_loop_acc (input : string) :
  ∀ acc b,
    chars (screamingSnakeToUpperCamelCase_loop input acc b)
    = chars acc ++ chars (screamingSnakeToUpperCamelCase_loop input EmptyString b).
Proof.
  induction input as [|c rest IH]; intros acc b;
    cbn [screamingSnakeToUpperCamelCase_loop].
  - cbn. by rewrite app_nil_r.
  - destruct (absl.ascii_isalpha c); [|destruct (absl.ascii_isdigit c)].
    + destruct b; rewrite IH, (IH (EmptyString +:+ _)), !chars_app; cbn;
        by rewrite <- app_assoc.
    + rewrite IH, (IH (EmptyString +:+ _)), !chars_app. cbn.
      by rewrite <- app_assoc.
    + apply IH.
Qed.

(** One character of input at a time, without the accumulator. *)
Lemma camelToSnakeCase_loop_step (c : ascii) (rest : string) (b : bool) :
  chars (camelToSnakeCase_loop (String c rest) EmptyString b)
  = if Ascii.eqb c "_"
    then "_"%char :: chars (camelToSnakeCase_loop rest EmptyString b)
    else (if negb b && absl.ascii_isupper c then ["_"%char] else [])
         ++ absl.ascii_tolower c
            :: chars (camelToSnakeCase_loop rest EmptyString false).
Proof.
  cbn [camelToSnakeCase_loop]. destruct (Ascii.eqb c "_").
  - by rewrite camelToSnakeCase_loop_acc.
  - rewrite camelToSnakeCase_loop_acc.
    destruct (negb b && absl.ascii_isupper c); reflexivity.
Qed.

Lemma screamingSnake_loop_step (c : ascii) (rest : string) (b : bool) :
  chars (screamingSnakeToUpperCamelCase_loop (String c rest) EmptyString b)
  = if absl.ascii_isalpha c then
      (if b then absl.ascii_toupper c else absl.ascii_tolower c)
      :: chars (screamingSnakeToUpperCamelCase_loop rest EmptyString false)
    else if absl.ascii_isdigit c then
      c :: chars (screamingSnakeToUpperCamelCase_loop rest EmptyString true)
    else chars (screamingSnakeToUpperCamelCase_loop rest EmptyString true).
Proof.
  cbn [screamingSnakeToUpperCamelCase_loop].
  destruct (absl.ascii_isalpha c); [|destruct (absl.ascii_isdigit c)].
  - rewrite screamingSnake_loop_acc. by destruct b.
  - by rewrite screamingSnake_loop_acc.
  - reflexivity.
Qed.

Lemma camelToSnakeCase_loop_no_upper (s : string) :
  ∀ b, Forall (λ c, absl.ascii_isupper c = false) (chars s) →
       chars (camelToSnakeCase_loop s EmptyString b) = chars s.
Proof.
  induction s as [|c rest IH]; intros b Hs; [reflexivity|].
  cbn [list_ascii_of_string] in Hs. apply Forall_cons in Hs as [Hc Hrest].
  rewrite camelToSnakeCase_loop_step. destruct (Ascii.eqb c "_") eqn:E.
  - apply Ascii.eqb_eq in E. subst c. cbn. by rewrite IH.
  - rewrite Hc, andb_false_r, tolower_fixes_non_upper by done. cbn.
    by rewrite IH.
Qed.

(** X1: [camelToSnakeCase] returns a name without uppercase letters
    unchanged, and its own output is such a name, so converting twice is the
    same as converting once. *)
Theorem camelToSnakeCase_idempotent (input : string) :
  (Forall (λ c, absl.ascii_isupper c = false) (chars input) →
   camelToSnakeCase input = input)
  ∧ Forall (λ c, absl.ascii_isupper c = false) (chars (camelToSnakeCase input))
  ∧ camelToSnakeCase (camelToSnakeCase input) = camelToSnakeCase input.
Proof.
  assert (Hout : Forall (λ c, absl.ascii_isupper c = false)
                        (chars (camelToSnakeCase input))).
  { rewrite camelToSnakeCase_pieces. apply snake_by_no_upper. }
  split; [|split; [exact Hout|]].
  - intros Hin. apply chars_inj. by apply camelToSnakeCase_loop_no_upper.
  - apply chars_inj. by apply camelToSnakeCase_loop_no_upper.
Qed.

Lemma camelToSnakeCase_idempotent_witness :
  camelToSnakeCase "my_enum_v2" = "my_enum_v2"
  ∧ camelToSnakeCase (camelToSnakeCase "HTTPServer_V2")
    = camelToSnakeCase "HTTPServer_V2".
Proof.
  split.
  - apply (proj1 (camelToSnakeCase_idempotent "my_enum_v2")).
    repeat constructor.
  - apply (proj2 (proj2 (camelToSnakeCase_idempotent "HTTPServer_V2"))).
Defined.

Lemma camelToSnakeCase_loop_letters (s : string) :
  ∀ b, filter (λ c, c ≠ "_"%char) (chars (camelToSnakeCase_loop s EmptyString b))
       = absl.ascii_tolower <$> filter (λ c, c ≠ "_"%char) (chars s).
Proof.
  induction s as [|c rest IH]; intros b; [reflexivity|].
  rewrite camelToSnakeCase_loop_step. cbn [list_ascii_of_string].
  destruct (Ascii.eqb c "_") eqn:E.
  - apply Ascii.eqb_eq in E. subst c.
    rewrite !filter_cons_False by (intros H; by apply H). apply IH.
  - pose proof E as Hc. apply Ascii.eqb_neq in Hc.
    assert (Hlow : absl.ascii_tolower c ≠ "_"%char).
    { apply Ascii.eqb_neq. by rewrite tolower_keeps_non_underscore. }
    rewrite filter_app, (filter_cons_True _ c), (filter_cons_True _ (absl.ascii_tolower c))
      by done.
    rewrite fmap_cons, IH.
    destruct (negb b && absl.ascii_isupper c); [|reflexivity].
    by rewrite filter_cons_False, filter_nil by (intros H; by apply H).
Qed.

Lemma camelToSnakeCase_loop_length (s : string) :
  ∀ b, length (chars s) ≤ length (chars (camelToSnakeCase_loop s EmptyString b))
       ∧ length (chars (camelToSnakeCase_loop s EmptyString b))
         ≤ 2 * length (chars s).
Proof.
  induction s as [|c rest IH]; intros b; [cbn; lia|].
  rewrite camelToSnakeCase_loop_step. cbn [list_ascii_of_string length].
  destruct (Ascii.eqb c "_").
  - cbn [length]. specialize (IH b). lia.
  - rewrite length_app. cbn [length]. specialize (IH false).
    destruct (negb b && absl.ascii_isupper c); cbn [length]; lia.
Qed.

(** X2: [camelToSnakeCase] only lowercases and adds underscores: without its
    underscores the output is the lowercased input without its underscores,
    and the output is at least as long as the input and at most twice as
    long. *)
Theorem camelToSnakeCase_only_adds_underscores (input : string) :
  filter (λ c, c ≠ "_"%char) (chars (camelToSnakeCase input))
  = absl.ascii_tolower <$> filter (λ c, c ≠ "_"%char) (chars input)
  ∧ String.length input ≤ String.length (camelToSnakeCase input)
  ∧ String.length (camelToSnakeCase input) ≤ 2 * String.length input.
Proof.
  split; [apply camelToSnakeCase_loop_letters|].
  rewrite <- !length_chars. apply camelToSnakeCase_loop_length.
Qed.

Lemma screamingSnake_loop_alnum_only (s : string) :
  ∀ b, Forall (λ c, ascii_isalnum c = true)
              (chars (screamingSnakeToUpperCamelCase_loop s EmptyString b)).
Proof.
  induction s as [|c rest IH]; intros b; [constructor|].
  rewrite screamingSnake_loop_step. unfold ascii_isalnum.
  destruct (absl.ascii_isalpha c) eqn:Ha; [|destruct (absl.ascii_isdigit c) eqn:Hd].
  - constructor; [|apply IH].
    destruct b; by rewrite ?isalpha_toupper, ?isalpha_tolower, Ha.
  - constructor; [|apply IH]. by rewrite Hd, orb_true_r.
  - apply IH.
Qed.

Lemma screamingSnake_loop_count (s : string) :
  ∀ b, length (chars (screamingSnakeToUpperCamelCase_loop s EmptyString b))
       = length (filter (λ c, ascii_isalnum c = true) (chars s)).
Proof.
  induction s as [|c rest IH]; intros b; [reflexivity|].
  rewrite screamingSnake_loop_step. cbn [list_ascii_of_string].
  unfold ascii_isalnum at 1.
  destruct (absl.ascii_isalpha c) eqn:Ha; [|destruct (absl.ascii_isdigit c) eqn:Hd].
  - rewrite filter_cons_True by (unfold ascii_isalnum; by rewrite Ha).
    cbn [length]. by rewrite IH.
  - rewrite filter_cons_True by (unfold ascii_isalnum; by rewrite Hd, orb_true_r).
    cbn [length]. by rewrite IH.
  - rewrite filter_cons_False by (unfold ascii_isalnum; by rewrite Ha, Hd).
    apply IH.
Qed.

(** X3: [screamingSnakeToUpperCamelCase] returns letters and digits only, one
    for each letter or digit of the input; every other character is
    dropped. *)
Theorem screamingSnakeToUpperCamelCase_keeps_alnum (input : string) :
  Forall (λ c, ascii_isalnum c = true)
         (chars (screamingSnakeToUpperCamelCase input))
  ∧ String.length (screamingSnakeToUpperCamelCase input)
    = length (filter (λ c, ascii_isalnum c = true) (chars input)).
Proof.
  split; [apply screamingSnake_loop_alnum_only|].
  rewrite <- length_chars. apply screamingSnake_loop_count.
Qed.

Lemma tolower_eq_classes (x y : ascii) :
  absl.ascii_tolower x = absl.ascii_tolower y →
  absl.ascii_isalpha x = absl.ascii_isalpha y
  ∧ absl.ascii_isdigit x = absl.ascii_isdigit y
  ∧ absl.ascii_toupper x = absl.ascii_toupper y
  ∧ (absl.ascii_isalpha x = false → x = y).
Proof.
  intros E. split; [|split; [|split]].
  - by rewrite <- (isalpha_tolower x), <- (isalpha_tolower y), E.
  - by rewrite <- (isdigit_tolower x), <- (isdigit_tolower y), E.
  - by rewrite <- (toupper_tolower x), <- (toupper_tolower y), E.
  - intros Hx.
    assert (Hy : absl.ascii_isalpha y = false).
    { by rewrite <- (isalpha_tolower y), <- E, isalpha_tolower. }
    by rewrite <- (tolower_non_alpha x Hx), <- (tolower_non_alpha y Hy).
Qed.

Lemma screamingSnake_loop_ignores_case (a : string) :
  ∀ b acc flag, absl.EqualsIgnoreCase a b = true →
    screamingSnakeToUpperCamelCase_loop a acc flag
    = screamingSnakeToUpperCamelCase_loop b acc flag.
Proof.
  induction a as [|x a IH]; intros [|y b] acc flag H; cbn in H;
    try discriminate; [reflexivity|].
  apply andb_true_iff in H as [Hxy Hab]. apply Ascii.eqb_eq in Hxy.
  destruct (tolower_eq_classes x y Hxy) as (Ha & Hd & Hu & Hsame).
  cbn [screamingSnakeToUpperCamelCase_loop]. rewrite <- Ha, <- Hd.
  destruct (absl.ascii_isalpha x) eqn:Hx.
  - destruct flag; rewrite ?Hu, ?Hxy; by apply IH.
  - rewrite <- (Hsame eq_refl). destruct (absl.ascii_isdigit x); by apply IH.
Qed.

(** X4: [screamingSnakeToUpperCamelCase] does not look at the letter case of
    its input: two names that are equal up to ASCII case are converted to the
    same name. *)
Theorem screamingSnakeToUpperCamelCase_ignores_case (a b : string) :
  absl.EqualsIgnoreCase a b = true →
  screamingSnakeToUpperCamelCase a = screamingSnakeToUpperCamelCase b.
Proof. apply screamingSnake_loop_ignores_case. Qed.

Lemma screamingSnakeToUpperCamelCase_ignores_case_witness :
  screamingSnakeToUpperCamelCase "FOO_bar" = screamingSnakeToUpperCamelCase "foo_BAR".
Proof.
  apply (screamingSnakeToUpperCamelCase_ignores_case "FOO_bar" "foo_BAR").
  reflexivity.
Defined.

Lemma alpha_not_underscore (c : ascii) :
  absl.ascii_isalpha c = true → Ascii.eqb c "_" = false.
Proof. by destruct c as [[] [] [] [] [] [] [] []]. Qed.

Lemma upper_is_alpha (c : ascii) :
  absl.ascii_isupper c = true → absl.ascii_isalpha c = true.
Proof. unfold absl.ascii_isalpha. by intros ->. Qed.

Lemma screamingSnake_loop_chars_ext (a b : string) (flag : bool) :
  chars a = chars b →
  screamingSnakeToUpperCamelCase_loop a EmptyString flag
  = screamingSnakeToUpperCamelCase_loop b EmptyString flag.
Proof. by intros ->%chars_inj. Qed.

(** Inside a name, after a letter: every letter of [s] comes back as it
    was. *)
Lemma screamingSnake_camelToSnake_inner (s : string) :
  Forall (λ c, absl.ascii_isalpha c = true) (chars s) →
  chars (screamingSnakeToUpperCamelCase_loop
           (camelToSnakeCase_loop s EmptyString false) EmptyString false)
  = chars s.
Proof.
  induction s as [|c rest IH]; intros Hs; [reflexivity|].
  cbn [list_ascii_of_string] in Hs. apply Forall_cons in Hs as [Hc Hrest].
  pose proof (camelToSnakeCase_loop_step c rest false) as Hstep.
  rewrite (alpha_not_underscore c Hc) in Hstep. cbn [negb andb] in Hstep.
  destruct (absl.ascii_isupper c) eqn:Hup.
  - rewrite (screamingSnake_loop_chars_ext _
               (String "_" (String (absl.ascii_tolower c)
                  (camelToSnakeCase_loop rest EmptyString false))) _ Hstep).
    rewrite screamingSnake_loop_step. cbn [absl.ascii_isalpha absl.ascii_isdigit].
    change (absl.ascii_isalpha "_") with false.
    change (absl.ascii_isdigit "_") with false. cbn iota.
    rewrite screamingSnake_loop_step, isalpha_tolower, Hc.
    rewrite toupper_tolower_upper by done. cbn. f_equal. by apply IH.
  - rewrite (screamingSnake_loop_chars_ext _
               (String (absl.ascii_tolower c)
                  (camelToSnakeCase_loop rest EmptyString false)) _ Hstep).
    rewrite screamingSnake_loop_step, isalpha_tolower, Hc.
    rewrite tolower_idempotent, (tolower_fixes_non_upper c) by done.
    cbn. f_equal. by apply IH.
Qed.

(** X5: on a name made of letters that starts with an uppercase letter,
    [screamingSnakeToUpperCamelCase] undoes [camelToSnakeCase]. *)
Theorem screamingSnake_camelToSnake_round_trip (c : ascii) (rest : string) :
  absl.ascii_isupper c = true →
  Forall (λ x, absl.ascii_isalpha x = true) (chars rest) →
  screamingSnakeToUpperCamelCase (camelToSnakeCase (String c rest))
  = String c rest.
Proof.
  intros Hup Hrest. apply chars_inj.
  unfold screamingSnakeToUpperCamelCase, camelToSnakeCase.
  pose proof (camelToSnakeCase_loop_step c rest true) as Hstep.
  rewrite (alpha_not_underscore c (upper_is_alpha c Hup)) in Hstep.
  cbn [negb andb app] in Hstep.
  rewrite (screamingSnake_loop_chars_ext _
             (String (absl.ascii_tolower c)
                (camelToSnakeCase_loop rest EmptyString false)) _ Hstep).
  rewrite screamingSnake_loop_step, isalpha_tolower, (upper_is_alpha c Hup).
  rewrite toupper_tolower_upper by done. cbn. f_equal.
  by apply screamingSnake_camelToSnake_inner.
Qed.

Lemma screamingSnake_camelToSnake_round_trip_witness :
  screamingSnakeToUpperCamelCase (camelToSnakeCase "MyEnum") = "MyEnum".
Proof.
  apply (screamingSnake_camelToSnake_round_trip "M" "yEnum").
  - reflexivity.
  - repeat constructor.
Defined.

(** X6: a normalized name never starts with a digit, and it is made of
    letters, digits and underscores only, so a non-empty one is an
    identifier. *)
Theorem rust_value_name_identifier
    (prefixes : list string) (value : EnumValueDescriptor) :
  absl.ascii_isdigit (string_at (rust_value_name prefixes value) 0) = false
  ∧ Forall (λ c, ascii_isalnum c = true ∨ c = "_"%char)
           (chars (rust_value_name prefixes value)).
Proof.
  unfold rust_value_name.
  set (r := screamingSnakeToUpperCamelCase (base_value_name prefixes value)).
  assert (Hr : Forall (λ c, ascii_isalnum c = true ∨ c = "_"%char) (chars r)).
  { eapply Forall_impl; [apply screamingSnake_loop_alnum_only|]. by left. }
  destruct (absl.ascii_isdigit (string_at r 0)) eqn:Hd.
  - split; [reflexivity|]. unfold absl.StrCat. cbn. constructor; [by right|done].
  - by split.
Qed.

(** ** More about the alias resolver *)

Lemma recorded_names_bindings (values : list RustEnumValue) :
  recorded_names values = fst <$> bindings values.
Proof.
  unfold recorded_names, bindings.
  induction values as [|v values IH]; [reflexivity|].
  cbn [mbind list_bind]. rewrite fmap_app, <- IH. cbn. f_equal. f_equal.
  rewrite <- list_fmap_compose. symmetry. apply list_fmap_id.
Qed.

Lemma recorded_names_alter (a : string) (values : list RustEnumValue) :
  ∀ i e, values !! i = Some e →
    recorded_names (alter (push_alias a) i values)
    ≡ₚ recorded_names values ++ [a].
Proof.
  unfold recorded_names.
  induction values as [|x values IH]; intros [|i] e Hi; try done.
  - cbn. f_equiv. rewrite <- !app_assoc. f_equiv. apply Permutation_app_comm.
  - cbn [alter list_alter mbind list_bind]. cbn in Hi.
    rewrite (IH i e Hi). by rewrite app_assoc.
Qed.

Lemma recorded_names_retained (pfx : list string) (vs : list EnumValueDescriptor) :
  recorded_names (canonical_list pfx vs)
  ≡ₚ rust_value_name pfx <$> retained pfx vs.
Proof.
  induction vs as [|v vs IH] using rev_ind; [reflexivity|].
  rewrite retained_snoc.
  destruct (decide (rust_value_name pfx v ∈ rust_value_name pfx <$> vs))
    as [Hin|Hin].
  { by rewrite canonical_list_snoc_discard. }
  rewrite fmap_app. cbn [fmap list_fmap].
  destruct (decide (value_number v ∈ number <$> canonical_list pfx vs))
    as [Hnum|Hnum].
  - apply list_elem_of_fmap in Hnum as (e & He & [i Hi]%list_elem_of_lookup).
    rewrite (canonical_list_snoc_alias pfx vs v i e) by done.
    rewrite (recorded_names_alter _ _ i e Hi). by rewrite IH.
  - rewrite canonical_list_snoc_new by done.
    unfold recorded_names in *. rewrite bind_app. cbn. by rewrite IH.
Qed.

Lemma bindings_canonical_list (pfx : list string)
    (vs : list EnumValueDescriptor) (n : string) (k : Z) :
  (n, k) ∈ bindings (canonical_list pfx vs)
  ↔ ∃ v, v ∈ retained pfx vs ∧ rust_value_name pfx v = n ∧ value_number v = k.
Proof.
  unfold bindings. rewrite list_elem_of_bind.
  assert (Hpair : ∀ c : RustEnumValue,
    (n, k) ∈ (name c, number c) :: ((λ a, (a, number c)) <$> aliases c)
    ↔ n ∈ name c :: aliases c ∧ k = number c).
  { intros c. rewrite !elem_of_cons, list_elem_of_fmap. split.
    - intros [[= -> ->]|(a & [= -> ->] & Ha)]; auto.
    - intros [[->|Hn] ->]; [by left|]. right. by exists n. }
  split.
  - intros (c & Hnk & Hc). apply Hpair in Hnk as [Hn ->].
    rewrite (canonical_list_names pfx vs c Hc) in Hn.
    apply list_elem_of_fmap in Hn as (v & -> & Hv).
    apply list_elem_of_filter in Hv as [E Hv]. by exists v.
  - intros (v & Hv & <- & <-).
    assert (value_number v ∈ value_number <$> first_by value_number (retained pfx vs))
      as (u & E & Hu)%list_elem_of_fmap.
    { apply first_by_keys. by apply list_elem_of_fmap_2. }
    exists (canonical_entry pfx (retained pfx vs) u). split.
    + apply Hpair. split; [|done].
      rewrite canonical_entry_names by done. apply list_elem_of_fmap_2.
      apply list_elem_of_filter. by split.
    + unfold canonical_list. by apply list_elem_of_fmap_2.
Qed.

Lemma omap_const_of_variant_items (enum_name : string)
    (values : list RustEnumValue) :
  omap const_of (variant_items enum_name values) = bindings values.
Proof.
  unfold variant_items, bindings.
  induction values as [|v values IH]; [reflexivity|].
  cbn [mbind list_bind]. rewrite omap_app, IH. f_equal. cbn. f_equal.
  induction (aliases v) as [|a al IHal]; [reflexivity|]. cbn. by rewrite IHal.
Qed.

Lemma omap_const_of_generated_items (type_name : string) (desc : EnumDescriptor)
    (first : EnumValueDescriptor) :
  omap const_of (generated_items type_name desc first)
  = bindings (enumValues desc).
Proof.
  unfold generated_items. cbn [omap list_omap const_of].
  rewrite omap_app, omap_const_of_variant_items.
  destruct (is_closed desc); cbn; by rewrite app_nil_r.
Qed.

Lemma first_by_prefix {A K : Type} `{EqDecision K} (key : A → K) (l k : list A) :
  first_by key l `prefix_of` first_by key (l ++ k).
Proof.
  induction k as [|x k IH] using rev_ind; [by rewrite app_nil_r|].
  rewrite app_assoc, first_by_snoc. destruct (decide _); [done|].
  by apply prefix_app_r.
Qed.

Lemma filter_unique_key {A K : Type} `{EqDecision K} (key : A → K)
    (l : list A) (x : A) :
  NoDup (key <$> l) → x ∈ l → filter (λ y, key y = key x) l = [x].
Proof.
  induction l as [|a l IH]; [by intros _ ?%elem_of_nil|].
  rewrite fmap_cons, NoDup_cons. intros [Ha Hl] [-> |Hx]%elem_of_cons.
  - rewrite filter_cons_True by done. f_equal.
    apply elem_of_nil_inv. intros y [E Hy]%list_elem_of_filter.
    apply Ha. rewrite <- E. by apply list_elem_of_fmap_2.
  - rewrite filter_cons_False; [by apply IH|].
    intros E. apply Ha. rewrite E. by apply list_elem_of_fmap_2.
Qed.

(** X7: the first declared value is never discarded and never becomes an
    alias: it is the first canonical entry, under its own normalized name and
    number. *)
Theorem enumValues_first_is_canonical (desc : EnumDescriptor)
    (first : EnumValueDescriptor) (rest : list EnumValueDescriptor) :
  desc_values desc = first :: rest →
  ∃ al tl,
    enumValues desc
    = {| name := rust_value_name (prefixes desc) first;
         number := value_number first; aliases := al |} :: tl.
Proof.
  intros E. rewrite enumValues_canonical_list, E.
  unfold canonical_list, retained. cbn [first_by fmap list_fmap].
  unfold canonical_entry at 1. by eexists _, _.
Qed.

Lemma enumValues_first_is_canonical_witness :
  ∃ al tl,
    enumValues color_closed
    = {| name := "Red"; number := 0; aliases := al |} :: tl.
Proof.
  apply (enumValues_first_is_canonical color_closed (ev "COLOR_RED" 0)
           [ev "Red" 1; ev "COLOR_BLUE" 2; ev "COLOR_AZURE" 2]).
  reflexivity.
Defined.

(** X8: when no two declared values normalize to the same name and no two
    have the same number, the resolver returns one entry per declared value,
    in declaration order, each under its normalized name and number and
    without aliases. *)
Theorem enumValues_without_collisions (desc : EnumDescriptor) :
  NoDup (rust_value_name (prefixes desc) <$> desc_values desc) →
  NoDup (value_number <$> desc_values desc) →
  enumValues desc = plain_entry (prefixes desc) <$> desc_values desc.
Proof.
  intros Hnames Hnums. rewrite enumValues_canonical_list.
  unfold canonical_list, retained.
  rewrite (first_by_NoDup_id _ _ Hnames), (first_by_NoDup_id _ _ Hnums).
  apply list_fmap_ext. intros i v Hv.
  unfold canonical_entry, plain_entry, with_number. f_equal.
  rewrite (filter_unique_key value_number _ v Hnums); [done|].
  by eapply list_elem_of_lookup_2.
Qed.

Lemma enumValues_without_collisions_witness :
  enumValues color_open
  = plain_entry (prefixes color_open) <$> desc_values color_open.
Proof.
  apply (enumValues_without_collisions color_open).
  - apply (bool_decide_unpack _). vm_compute. exact I.
  - apply (bool_decide_unpack _). vm_compute. exact I.
Defined.

(** X9: declared values that come later never change what the resolver has
    made of the earlier ones: the entries built from a leading part of the
    schema keep their position, name and number in the final list, and their
    aliases are only added to at the end. *)
Theorem enumValues_entries_only_grow (desc : EnumDescriptor)
    (pre post : list EnumValueDescriptor) (i : nat) (c : RustEnumValue) :
  desc_values desc = pre ++ post →
  result (enumValues_run (prefixes desc) pre) !! i = Some c →
  ∃ c', enumValues desc !! i = Some c'
        ∧ name c' = name c ∧ number c' = number c
        ∧ aliases c `prefix_of` aliases c'.
Proof.
  intros E. rewrite enumValues_run_result, enumValues_canonical_list, E.
  unfold canonical_list. set (pfx := prefixes desc).
  destruct (first_by_prefix (rust_value_name pfx) pre post) as [k Hk].
  fold (retained pfx (pre ++ post)) in Hk. fold (retained pfx pre) in Hk.
  rewrite Hk. set (rs := retained pfx pre).
  destruct (first_by_prefix value_number rs k) as [k' Hk']. rewrite Hk'.
  rewrite list_lookup_fmap.
  destruct (first_by value_number rs !! i) as [u|] eqn:Hu; [|done].
  cbn. intros [= <-]. exists (canonical_entry pfx (rs ++ k) u).
  split; [|split; [done|split; [done|]]].
  - rewrite list_lookup_fmap, (lookup_app_l_Some _ _ _ _ Hu). done.
  - cbn. unfold with_number. rewrite filter_app, fmap_app.
    apply list_elem_of_lookup_2, first_by_head in Hu as [tl Htl].
    rewrite Htl. cbn. by apply prefix_app_r.
Qed.

Lemma enumValues_entries_only_grow_witness :
  ∃ c', enumValues color_closed !! 0 = Some c'
        ∧ name c' = "Red" ∧ number c' = 0%Z
        ∧ [] `prefix_of` aliases c'.
Proof.
  apply (enumValues_entries_only_grow color_closed
           [ev "COLOR_RED" 0] [ev "Red" 1; ev "COLOR_BLUE" 2; ev "COLOR_AZURE" 2]
           0 {| name := "Red"; number := 0; aliases := [] |}).
  - reflexivity.
  - reflexivity.
Defined.

(** ** More about the generated code *)

Lemma from_integer_generated_items (type_name : string) (desc : EnumDescriptor)
    (first : EnumValueDescriptor) (n : Z) :
  Generated.from_integer (generated_items type_name desc first) n
  = Some (if is_closed desc
          then Generated.try_from (known_values_pattern (enumValues desc)) n
          else Generated.Ok (Generated.Self n)).
Proof.
  unfold generated_items. cbn [Generated.from_integer].
  rewrite from_integer_skip_consts by apply variant_items_consts.
  by destruct (is_closed desc).
Qed.

Lemma to_integer_generated_items (type_name : string) (desc : EnumDescriptor)
    (first : EnumValueDescriptor) (v : Generated.Enum) :
  Generated.to_integer (generated_items type_name desc first) v
  = Some (Generated.into_i32 v).
Proof.
  unfold generated_items. cbn [Generated.to_integer].
  by rewrite to_integer_skip_consts by apply variant_items_consts.
Qed.

Lemma generated_items_cases (type_name : string) (desc : EnumDescriptor)
    (first : EnumValueDescriptor) (item : RustItem) :
  item ∈ generated_items type_name desc first →
  is_AssocConst item
  ∨ item ∈ [ StructDecl type_name; ImplIntoI32 type_name;
             (if is_closed desc
              then ImplTryFromI32 type_name (known_values_pattern (enumValues desc))
              else ImplFromI32 type_name);
             ImplDefault type_name (value_number first);
             ImplDebug type_name; ImplProxied type_name;
             ImplViewProxy type_name; ImplSettableValue type_name;
             ImplProxiedWithPresence type_name;
             ImplProxiedInRepeated type_name;
             ImplPrimitiveWithRawVTable type_name; ImplEnum type_name ].
Proof.
  unfold generated_items. rewrite elem_of_cons, elem_of_app.
  intros [-> |[Hconst|Hrest]].
  - right. by left.
  - left. by eapply (proj1 (Forall_forall _ _) (variant_items_consts _ _)).
  - right. by right.
Qed.

Section GeneratedFacts.
Variable UnderscoresToCamelCase : string → bool → string.

Local Abbreviation Generate := (GenerateEnumDefinition UnderscoresToCamelCase).
Local Abbreviation type_name := (enumName UnderscoresToCamelCase).

(** X10: the constants of the generated type have pairwise distinct names,
    and there is one constant for each declared value that was not
    discarded. *)
Theorem generated_constants_distinct (desc : EnumDescriptor) (s : Sink) :
  desc_values desc ≠ [] →
  ∃ out,
    Generate desc s = (s ++ out, Some ())
    ∧ NoDup (fst <$> omap const_of out)
    ∧ length (omap const_of out)
      = length (retained (prefixes desc) (desc_values desc)).
Proof.
  intros Hne. destruct (desc_values desc) as [|first rest] eqn:E; [done|].
  exists (generated_items (type_name desc) desc first).
  split; [by apply (GenerateEnumDefinition_run _ desc first rest s E)|].
  rewrite omap_const_of_generated_items, <- E.
  pose proof (recorded_names_retained (prefixes desc) (desc_values desc)) as Hperm.
  rewrite <- enumValues_canonical_list, recorded_names_bindings in Hperm.
  split.
  - rewrite Hperm. apply first_by_NoDup.
  - apply Permutation_length in Hperm. by rewrite !length_fmap in Hperm.
Qed.

(** X11: the generated type has a constant of name [n] and number [k] exactly
    when some declared value that was not discarded has the normalized name
    [n] and the number [k]. *)
Theorem generated_constants_are_kept_values (desc : EnumDescriptor) (s : Sink) :
  desc_values desc ≠ [] →
  ∃ out,
    Generate desc s = (s ++ out, Some ())
    ∧ ∀ n k,
        (n, k) ∈ omap const_of out
        ↔ ∃ v, v ∈ retained (prefixes desc) (desc_values desc)
               ∧ rust_value_name (prefixes desc) v = n ∧ value_number v = k.
Proof.
  intros Hne. destruct (desc_values desc) as [|first rest] eqn:E; [done|].
  exists (generated_items (type_name desc) desc first).
  split; [by apply (GenerateEnumDefinition_run _ desc first rest s E)|].
  intros n k. rewrite omap_const_of_generated_items, <- E.
  rewrite enumValues_canonical_list. apply bindings_canonical_list.
Qed.

(** X12: the number of every constant of the generated type converts to the
    type and back, also when the enum is closed: no constant holds a value
    that [try_from] rejects. *)
Theorem generated_constants_convert (desc : EnumDescriptor) :
  desc_values desc ≠ [] →
  ∃ out,
    Generate desc [] = (out, Some ())
    ∧ ∀ n k,
        (n, k) ∈ omap const_of out →
        Generated.from_integer out k = Some (Generated.Ok (Generated.Self k))
        ∧ Generated.to_integer out (Generated.Self k) = Some k.
Proof.
  intros Hne. destruct (desc_values desc) as [|first rest] eqn:E; [done|].
  exists (generated_items (type_name desc) desc first).
  split; [by rewrite (GenerateEnumDefinition_run _ desc first rest [] E)|].
  intros n k. rewrite omap_const_of_generated_items.
  rewrite enumValues_canonical_list. intros Hnk.
  rewrite from_integer_generated_items, to_integer_generated_items.
  split; [|done]. destruct (is_closed desc); [|done].
  unfold Generated.try_from.
  assert (Generated.matches k (known_values_pattern (enumValues desc)) = true)
    as ->; [|done].
  apply matches_elem_of, known_values_pattern_kept, kept_number_retained.
  apply bindings_canonical_list in Hnk as (v & Hv & _ & <-).
  by apply list_elem_of_fmap_2.
Qed.

(** X13: the default value of the generated type converts to an integer and
    back, also when the enum is closed: [try_from] accepts the number of the
    first declared value. *)
Theorem generated_default_converts (desc : EnumDescriptor) :
  desc_values desc ≠ [] →
  ∃ out d,
    Generate desc [] = (out, Some ())
    ∧ Generated.default out = Some d
    ∧ Generated.to_integer out d = Some (Generated.into_i32 d)
    ∧ Generated.from_integer out (Generated.into_i32 d) = Some (Generated.Ok d).
Proof.
  intros Hne. destruct (desc_values desc) as [|first rest] eqn:E; [done|].
  exists (generated_items (type_name desc) desc first),
         (Generated.Self (value_number first)).
  split; [by rewrite (GenerateEnumDefinition_run _ desc first rest [] E)|].
  split.
  { unfold generated_items. cbn [Generated.default].
    rewrite default_skip_consts by apply variant_items_consts.
    by destruct (is_closed desc). }
  rewrite from_integer_generated_items, to_integer_generated_items.
  split; [done|]. destruct (is_closed desc); [|done].
  unfold Generated.try_from. cbn [Generated.into_i32].
  assert (Generated.matches (value_number first)
            (known_values_pattern (enumValues desc)) = true) as ->; [|done].
  apply matches_elem_of, known_values_pattern_kept. rewrite E.
  exists 0, first. split; [done|]. split; [done|]. intros j u Hj. lia.
Qed.

(** X14: the generated code has exactly one conversion from [i32]: the
    fallible [TryFrom] when the enum is closed and the infallible [From] when
    it is open, never both. *)
Theorem generated_conversion_is_exclusive (desc : EnumDescriptor) (s : Sink) :
  desc_values desc ≠ [] →
  ∃ out,
    Generate desc s = (s ++ out, Some ())
    ∧ ((∃ nm pattern, ImplTryFromI32 nm pattern ∈ out) ↔ is_closed desc = true)
    ∧ ((∃ nm, ImplFromI32 nm ∈ out) ↔ is_closed desc = false).
Proof.
  intros Hne. destruct (desc_values desc) as [|first rest] eqn:E; [done|].
  exists (generated_items (type_name desc) desc first).
  split; [by apply (GenerateEnumDefinition_run _ desc first rest s E)|].
  assert (Hin : (if is_closed desc
                 then ImplTryFromI32 (type_name desc)
                        (known_values_pattern (enumValues desc))
                 else ImplFromI32 (type_name desc))
                ∈ generated_items (type_name desc) desc first).
  { unfold generated_items. apply elem_of_cons. right. apply elem_of_app.
    right. apply elem_of_cons. right. by left. }
  split; split.
  - intros (nm & pattern & [Hc|Hitem]%generated_items_cases); [done|].
    destruct (is_closed desc); [done|].
    repeat (apply elem_of_cons in Hitem as [Hitem|Hitem]; [discriminate|]).
    by apply elem_of_nil in Hitem.
  - intros Hc. rewrite Hc in Hin. by eexists _, _.
  - intros (nm & [Hc|Hitem]%generated_items_cases); [done|].
    destruct (is_closed desc); [|done].
    repeat (apply elem_of_cons in Hitem as [Hitem|Hitem]; [discriminate|]).
    by apply elem_of_nil in Hitem.
  - intros Hc. rewrite Hc in Hin. by eexists.
Qed.

End GeneratedFacts.

Lemma generated_constants_distinct_witness :
  ∃ out,
    GenerateEnumDefinition keep_name color_closed [] = ([] ++ out, Some ())
    ∧ NoDup (fst <$> omap const_of out)
    ∧ length (omap const_of out)
      = length (retained (prefixes color_closed) (desc_values color_closed)).
Proof.
  apply (generated_constants_distinct keep_name color_closed []). discriminate.
Defined.

Lemma generated_constants_are_kept_values_witness :
  ∃ out,
    GenerateEnumDefinition keep_name color_closed [] = ([] ++ out, Some ())
    ∧ ∀ n k,
        (n, k) ∈ omap const_of out
        ↔ ∃ v, v ∈ retained (prefixes color_closed) (desc_values color_closed)
               ∧ rust_value_name (prefixes color_closed) v = n
               ∧ value_number v = k.
Proof.
  apply (generated_constants_are_kept_values keep_name color_closed []).
  discriminate.
Defined.

Lemma generated_constants_convert_witness :
  ∃ out,
    GenerateEnumDefinition keep_name color_closed [] = (out, Some ())
    ∧ ∀ n k,
        (n, k) ∈ omap const_of out →
        Generated.from_integer out k = Some (Generated.Ok (Generated.Self k))
        ∧ Generated.to_integer out (Generated.Self k) = Some k.
Proof.
  apply (generated_constants_convert keep_name color_closed). discriminate.
Defined.

Lemma generated_default_converts_witness :
  ∃ out d,
    GenerateEnumDefinition keep_name color_closed [] = (out, Some ())
    ∧ Generated.default out = Some d
    ∧ Generated.to_integer out d = Some (Generated.into_i32 d)
    ∧ Generated.from_integer out (Generated.into_i32 d) = Some (Generated.Ok d).
Proof.
  apply (generated_default_converts keep_name color_closed). discriminate.
Defined.

Lemma generated_conversion_is_exclusive_witness :
  ∃ out,
    GenerateEnumDefinition keep_name color_closed [] = ([] ++ out, Some ())
    ∧ ((∃ nm pattern, ImplTryFromI32 nm pattern ∈ out)
       ↔ is_closed color_closed = true)
    ∧ ((∃ nm, ImplFromI32 nm ∈ out) ↔ is_closed color_closed = false).
Proof.
  apply (generated_conversion_is_exclusive keep_name color_closed []).
  discriminate.
Defined.

(** ** More about prefix stripping *)

Lemma EqualsIgnoreCase_strip (p : string) :
  ∀ q r, absl.EqualsIgnoreCase q p = true →
         strip_ignore_case p (q +:+ r) = Some r.
Proof.
  induction p as [|a p IH]; intros [|b q] r H; cbn in H; try discriminate.
  - reflexivity.
  - apply andb_true_iff in H as [Hba Hqp]. simpl. rewrite Hba. by apply IH.
Qed.

Lemma string_app_empty (s : string) : s +:+ EmptyString = s.
Proof.
  induction s as [|c s IH]; [reflexivity|].
  change (String c (s +:+ EmptyString) = String c s). by rewrite IH.
Qed.

(** X15: a value named like the enum itself, in any letter case and with or
    without one underscore after it, is not stripped: its whole name goes on
    to be normalized. *)
Theorem base_value_name_like_enum (desc : EnumDescriptor)
    (value : EnumValueDescriptor) (q : string) :
  absl.EqualsIgnoreCase q (desc_name desc) = true →
  value_name value = q ∨ value_name value = q +:+ "_" →
  base_value_name (prefixes desc) value = value_name value.
Proof.
  intros Hq Hname. unfold base_value_name, prefixes.
  rewrite strip_prefix_loop_cons.
  assert (∃ r, value_name value = q +:+ r ∧ strip_one_underscore r = EmptyString)
    as (r & -> & Hr).
  { destruct Hname as [-> | ->].
    - exists EmptyString. by rewrite string_app_empty.
    - by exists "_". }
  by rewrite (EqualsIgnoreCase_strip _ q r Hq), Hr.
Qed.

Lemma base_value_name_like_enum_witness :
  base_value_name (prefixes color_open) (ev "COLOR_" 0) = "COLOR_".
Proof.
  apply (base_value_name_like_enum color_open (ev "COLOR_" 0) "COLOR").
  - reflexivity.
  - by right.
Defined.

Lemma strip_ignore_case_ignores_case (p : string) :
  ∀ a b, absl.EqualsIgnoreCase a b = true →
    match strip_ignore_case p a, strip_ignore_case p b with
    | Some ra, Some rb => absl.EqualsIgnoreCase ra rb = true
    | None, None => True
    | _, _ => False
    end.
Proof.
  induction p as [|c p IH]; intros a b H; [done|].
  destruct a as [|x a], b as [|y b]; cbn in H; try discriminate; [done|].
  apply andb_true_iff in H as [Hxy Hab]. apply Ascii.eqb_eq in Hxy.
  cbn [strip_ignore_case]. rewrite Hxy.
  destruct (Ascii.eqb (absl.ascii_tolower y) (absl.ascii_tolower c)); [|done].
  by apply IH.
Qed.

Lemma strip_one_underscore_ignores_case (a b : string) :
  absl.EqualsIgnoreCase a b = true →
  absl.EqualsIgnoreCase (strip_one_underscore a) (strip_one_underscore b) = true.
Proof.
  destruct a as [|x a], b as [|y b]; cbn; try done. intros H.
  pose proof H as [Hxy Hab]%andb_true_iff. apply Ascii.eqb_eq in Hxy.
  rewrite <- (tolower_keeps_non_underscore x), <- (tolower_keeps_non_underscore y).
  rewrite Hxy. by destruct (Ascii.eqb (absl.ascii_tolower y) "_").
Qed.

Lemma strip_prefix_loop_ignores_case (ps : list string) (a b : string) :
  absl.EqualsIgnoreCase a b = true →
  absl.EqualsIgnoreCase (strip_prefix_loop ps a) (strip_prefix_loop ps b) = true.
Proof.
  intros H. induction ps as [|p ps IH]; [done|].
  rewrite !strip_prefix_loop_cons.
  pose proof (strip_ignore_case_ignores_case p a b H) as Hp.
  destruct (strip_ignore_case p a) as [ra|], (strip_ignore_case p b) as [rb|];
    try done.
  by apply strip_one_underscore_ignores_case.
Qed.

(** X16: the normalized name of a declared value does not depend on the
    letter case of its symbolic name: two value names that are equal up to
    ASCII case get the same normalized name, so the later of the two is
    discarded. *)
Theorem rust_value_name_ignores_case (prefixes : list string)
    (u v : EnumValueDescriptor) :
  absl.EqualsIgnoreCase (value_name u) (value_name v) = true →
  rust_value_name prefixes u = rust_value_name prefixes v.
Proof.
  intros H. unfold rust_value_name.
  assert (Hbase : absl.EqualsIgnoreCase (base_value_name prefixes u)
                                        (base_value_name prefixes v) = true).
  { unfold base_value_name.
    pose proof (strip_prefix_loop_ignores_case prefixes _ _ H) as Hs.
    destruct (strip_prefix_loop prefixes (value_name u)),
             (strip_prefix_loop prefixes (value_name v)); cbn in Hs |- *;
      done. }
  unfold screamingSnakeToUpperCamelCase.
  by rewrite (screamingSnake_loop_ignores_case _ _ EmptyString true Hbase).
Qed.

Lemma rust_value_name_ignores_case_witness :
  rust_value_name (prefixes color_open) (ev "COLOR_dark_RED" 3)
  = rust_value_name (prefixes color_open) (ev "color_DARK_red" 4).
Proof.
  apply (rust_value_name_ignores_case (prefixes color_open)
           (ev "COLOR_dark_RED" 3) (ev "color_DARK_red" 4)).
  reflexivity.
Defined.

(** ** The text of the known-values pattern *)

Lemma string_app_assoc (a b c : string) : (a +:+ b) +:+ c = a +:+ (b +:+ c).
Proof.
  induction a as [|x a IH]; [reflexivity|].
  change (String x ((a +:+ b) +:+ c) = String x (a +:+ (b +:+ c))).
  by rewrite IH.
Qed.

Lemma known_values_pattern_loop_join (rest : list RustEnumValue) :
  ∀ size i out, i + length rest = size →
    known_values_pattern_loop size i rest out
    = out +:+ String.concat "|" (StrCat_int32 <$> (number <$> rest)).
Proof.
  induction rest as [|value rest IH]; intros size i out Hsize.
  - cbn. by rewrite string_app_empty.
  - cbn [known_values_pattern_loop]. cbn [length] in Hsize.
    rewrite (IH size (S i)) by lia. unfold absl.StrCat.
    destruct rest as [|value' rest].
    + cbn [length] in Hsize.
      replace (i <? size - 1)%nat with false
        by (symmetry; apply Nat.ltb_ge; lia).
      cbn. by rewrite !string_app_empty.
    + cbn [length] in Hsize.
      replace (i <? size - 1)%nat with true
        by (symmetry; apply Nat.ltb_lt; lia).
      cbn [fmap list_fmap String.concat]. by rewrite !string_app_assoc.
Qed.

(** X17: the text emitted for the pattern of a closed enum's [try_from] is
    the decimal numbers of the canonical values joined by bars: a bar stands
    between any two alternatives and none at either end, and an empty list
    gives the empty text. *)
Theorem known_values_pattern_text_join (values : list RustEnumValue) :
  known_values_pattern_text values
  = String.concat "|" (StrCat_int32 <$> known_values_pattern values).
Proof.
  unfold known_values_pattern_text, known_values_pattern.
  by rewrite (known_values_pattern_loop_join values (length values) 0 EmptyString).
Qed.

(** ** The shape of a normalized name *)

Lemma toupper_alpha_upper (c : ascii) :
  absl.ascii_isalpha c = true → absl.ascii_isupper (absl.ascii_toupper c) = true.
Proof. by destruct c as [[] [] [] [] [] [] [] []]. Qed.

Lemma upper_not_digit (c : ascii) :
  absl.ascii_isupper c = true → absl.ascii_isdigit c = false.
Proof. by destruct c as [[] [] [] [] [] [] [] []]. Qed.

Lemma screamingSnake_loop_head (s : string) (c : ascii) (rest : list ascii) :
  chars (screamingSnakeToUpperCamelCase_loop s EmptyString true) = c :: rest →
  absl.ascii_isupper c = true ∨ absl.ascii_isdigit c = true.
Proof.
  induction s as [|x s IH]; [discriminate|].
  rewrite screamingSnake_loop_step.
  destruct (absl.ascii_isalpha x) eqn:Ha; [|destruct (absl.ascii_isdigit x) eqn:Hd].
  - intros [= <- _]. left. by apply toupper_alpha_upper.
  - intros [= <- _]. by right.
  - exact IH.
Qed.

(** X18: a normalized name starts with an uppercase letter or, where a digit
    would come first, with the underscore put in front of it; it never
    starts with a lowercase letter. *)
Theorem rust_value_name_starts_upper (prefixes : list string)
    (value : EnumValueDescriptor) (c : ascii) (rest : string) :
  rust_value_name prefixes value = String c rest →
  absl.ascii_isupper c = true ∨ c = "_"%char.
Proof.
  unfold rust_value_name.
  set (r := screamingSnakeToUpperCamelCase (base_value_name prefixes value)).
  destruct (absl.ascii_isdigit (string_at r 0)) eqn:Hd.
  - unfold absl.StrCat. intros [= <- _]. by right.
  - intros Hr. rewrite Hr in Hd. cbn in Hd.
    assert (chars r = c :: chars rest) as Hchars by (by rewrite Hr).
    apply screamingSnake_loop_head in Hchars as [Hup|Hdig]; [by left|].
    by rewrite Hdig in Hd.
Qed.

Lemma rust_value_name_starts_upper_witness :
  absl.ascii_isupper "D" = true ∨ "D"%char = "_"%char.
Proof.
  apply (rust_value_name_starts_upper (prefixes color_open)
           (ev "color_dark_red" 0) "D" "arkRed").
  reflexivity.
Defined.

(** ** The capacity reserved for the resolver's containers *)

Lemma enumValues_body_sizes (pfx : list string) (st : enumValues_state)
    (v : EnumValueDescriptor) :
  let st' := enumValues_body pfx st v in
  size (seen_by_name st') ≤ S (size (seen_by_name st))
  ∧ size (seen_by_number st') ≤ S (size (seen_by_number st))
  ∧ length (result st') ≤ S (length (result st)).
Proof.
  unfold enumValues_body.
  destruct (decide (rust_value_name pfx v ∈ seen_by_name st)) as [Hin|Hin];
    [cbn; lia|].
  assert (size ({[rust_value_name pfx v]} ∪ seen_by_name st)
          = S (size (seen_by_name st))) as Hnames.
  { rewrite size_union by set_solver. by rewrite size_singleton. }
  destruct (seen_by_number st !! value_number v) as [it|] eqn:Hit;
    cbn [seen_by_name seen_by_number result]; rewrite Hnames.
  - rewrite length_alter. lia.
  - rewrite map_size_insert_None by done. rewrite length_app. cbn. lia.
Qed.

Lemma enumValues_run_sizes (pfx : list string) (vs : list EnumValueDescriptor) :
  let st := enumValues_run pfx vs in
  size (seen_by_name st) ≤ length vs
  ∧ size (seen_by_number st) ≤ length vs
  ∧ length (result st) ≤ length vs.
Proof.
  induction vs as [|v vs IH] using rev_ind.
  - cbn. rewrite size_empty, map_size_empty. lia.
  - unfold enumValues_run in *. rewrite fold_left_app, length_app. cbn [fold_left].
    cbn zeta in IH.
    pose proof (enumValues_body_sizes pfx
                  (fold_left (enumValues_body pfx) vs enumValues_init) v) as H.
    cbn zeta in H. cbn [length]. lia.
Qed.

(** X19: at every point of the resolver's loop each of its three containers
    holds at most as many elements as the schema declares values, which is
    the capacity reserved for it before the loop; [result] is therefore never
    reallocated and the pointers kept in [seen_by_number] stay valid. *)
Theorem enumValues_containers_within_reserve (desc : EnumDescriptor)
    (pre post : list EnumValueDescriptor) :
  desc_values desc = pre ++ post →
  let st := enumValues_run (prefixes desc) pre in
  size (seen_by_name st) ≤ value_count desc
  ∧ size (seen_by_number st) ≤ value_count desc
  ∧ length (result st) ≤ value_count desc.
Proof.
  intros E st. unfold value_count. rewrite E, length_app.
  pose proof (enumValues_run_sizes (prefixes desc) pre) as H. cbn zeta in H.
  fold st in H. lia.
Qed.

Lemma enumValues_containers_within_reserve_witness :
  let st := enumValues_run (prefixes color_closed)
              [ev "COLOR_RED" 0; ev "Red" 1] in
  size (seen_by_name st) ≤ value_count color_closed
  ∧ size (seen_by_number st) ≤ value_count color_closed
  ∧ length (result st) ≤ value_count color_closed.
Proof.
  apply (enumValues_containers_within_reserve color_closed
           [ev "COLOR_RED" 0; ev "Red" 1]
           [ev "COLOR_BLUE" 2; ev "COLOR_AZURE" 2]).
  reflexivity.
Defined.

(** ** What a closed enum never accepts *)

Section ClosedFacts.
Variable UnderscoresToCamelCase : string → bool → string.

(** X20: the [try_from] generated for a closed enum never accepts a number
    that the schema does not declare: whatever it accepts is the number of
    some declared value. *)
Theorem closed_try_from_accepts_only_declared (desc : EnumDescriptor) (n : Z)
    (v : Generated.Enum) :
  is_closed desc = true →
  Generated.from_integer
    (fst (GenerateEnumDefinition UnderscoresToCamelCase desc [])) n
  = Some (Generated.Ok v) →
  v = Generated.Self n ∧ n ∈ value_number <$> desc_values desc.
Proof.
  intros Hclosed.
  destruct (desc_values desc) as [|first rest] eqn:E.
  - by rewrite (GenerateEnumDefinition_empty _ desc [] E).
  - rewrite (GenerateEnumDefinition_run _ desc first rest [] E). cbn [fst app].
    rewrite from_integer_generated_items, Hclosed. unfold Generated.try_from.
    destruct (Generated.matches n _) eqn:Hm; [|done].
    intros [= <-]. split; [done|].
    apply matches_elem_of, known_values_pattern_kept in Hm.
    destruct Hm as (i & u & Hi & <- & _). rewrite <- E.
    apply list_elem_of_fmap_2. by eapply list_elem_of_lookup_2.
Qed.

End ClosedFacts.

Lemma closed_try_from_accepts_only_declared_witness :
  Generated.Self 2 = Generated.Self 2
  ∧ 2%Z ∈ value_number <$> desc_values color_closed.
Proof.
  apply (closed_try_from_accepts_only_declared keep_name color_closed 2
           (Generated.Self 2)).
  - reflexivity.
  - reflexivity.
Defined.
